(** * PeerCall: the 1:1 call signalling engine of hydrogen-web

    A shallow embedding of [src/matrix/calls/PeerCall.ts].

    The class is single-threaded cooperative code built from [async]
    methods.  A method runs synchronously up to its next [await]; what is
    left of it is a continuation that is resumed later, on whatever the
    fields of the call hold by then.  The embedding keeps exactly that
    shape:

    - the fields of the class are a record [PeerCall];
    - calls made on the external collaborators (the peer connection, the
      local tracks, the host handler, the timeout factory) are appended to
      an effect log, so their order can be stated;
    - an [async] method is a function from the world to a [Step]: the world
      after its synchronous prefix, the activations it started without
      awaiting them, and its own continuation ([Async]).

    The logger the constructor builds (l.78-83) has four methods, which
    print: calls of those are left out. It has no method [info]; the calls
    of [this.logger.info] throw, and are modelled as such ([logger]). *)

From stdpp Require Import base option list strings gmap.
From Stdlib Require Import ZArith Lia.

(** ** Enumerations (bottom of PeerCall.ts) *)

Inductive CallParty := Local | Remote.

Inductive CallState :=
| Fledgling | InviteSent | WaitLocalMedia | CreateOffer | CreateAnswer
| Connecting | Connected | Ringing | Ended.

Inductive CallDirection := Inbound | Outbound.

Inductive EventType :=
| Invite | Candidates | Answer | Hangup | Reject | SelectAnswer
| Negotiate | SDPStreamMetadataChanged | SDPStreamMetadataChangedPrefix
| Replaces | AssertedIdentity | AssertedIdentityPrefix.

(** [CallErrorCode.CreateAnswer] is [CreateAnswerFailed] here: the name is
    taken by the state. *)
Inductive CallErrorCode :=
| UserHangup | LocalOfferFailed | NoUserMedia | UnknownDevices | SendInvite
| CreateAnswerFailed | SendAnswer | SetRemoteDescription | SetLocalDescription
| AnsweredElsewhere | IceFailed | InviteTimeout | Replaced | SignallingFailed
| UserBusy | Transfered | NewSession.

#[global] Instance CallState_eq_dec : EqDecision CallState.
Proof. solve_decision. Defined.
#[global] Instance CallParty_eq_dec : EqDecision CallParty.
Proof. solve_decision. Defined.
#[global] Instance CallDirection_eq_dec : EqDecision CallDirection.
Proof. solve_decision. Defined.

(** [type PartyId = string | null]: [None] is the legacy [null] party. *)
Definition PartyId := option string.

Definition CALL_TIMEOUT_MS : Z := 60000%Z.

(** ** Data exchanged with the collaborators *)

Inductive TrackType := Microphone | Camera | ScreenShare.

#[global] Instance TrackType_eq_dec : EqDecision TrackType.
Proof. solve_decision. Defined.

(** A [Track] object; [trackId] stands for the identity of the object. *)
Record Track := mkTrack {
  trackId : nat;
  trackType : TrackType;
  streamId : string;
}.

Inductive SDPStreamMetadataPurpose := Usermedia | Screenshare.

Record SDPStreamMetadataObject := mkStreamMeta {
  purpose : SDPStreamMetadataPurpose;
  audio_muted : bool;
  video_muted : bool;
}.

Abbreviation SDPStreamMetadata := (gmap string SDPStreamMetadataObject).

Record RTCSessionDescription := mkDesc {
  sdp : string;
  sdpType : string;
}.

(** [RTCIceCandidate]: [sdpMid] and [sdpMLineIndex] may be null/undefined. *)
Record RTCIceCandidate := mkCandidate {
  candidate : string;
  sdpMid : option string;
  sdpMLineIndex : option Z;
}.

Record LocalMedia := mkLocalMedia {
  tracks : list Track;
  getSDPMetadata : SDPStreamMetadata;
  microphoneTrack : option Track;
  cameraTrack : option Track;
  screenShareTrack : option Track;
}.

Record InviteContent := mkInviteContent {
  inv_offer : option RTCSessionDescription;
  inv_sdp_stream_metadata : option SDPStreamMetadata;
  inv_version : option Z;
  inv_lifetime : option Z;
}.

Record AnwserContent := mkAnwserContent {
  ans_answer : RTCSessionDescription;
  ans_sdp_stream_metadata : option SDPStreamMetadata;
}.

Record CandidatesContent := mkCandidatesContent {
  candidates : list RTCIceCandidate;
}.

(** The switch of [handleIncomingSignallingMessage] names four event types;
    the first three carry the content the handlers read. *)
Inductive SignallingMessage :=
| InviteMessage (content : InviteContent)
| AnswerMessage (content : AnwserContent)
| CandidatesMessage (content : CandidatesContent)
| HangupMessage (reason : option CallErrorCode)
| OtherMessage (type : EventType).

Definition messageType (m : SignallingMessage) : EventType :=
  match m with
  | InviteMessage _ => Invite
  | AnswerMessage _ => Answer
  | CandidatesMessage _ => Candidates
  | HangupMessage _ => Hangup
  | OtherMessage t => t
  end.

(** ** The abstract peer connection

    The properties the class reads from [this.peerConnection]. They belong
    to the external object and may differ from one resumption to the
    next. *)

Inductive RTCIceGatheringState := IceNew | IceGathering | IceComplete.
Inductive RTCSignalingState := SigStable | SigHaveLocalOffer | SigHaveRemoteOffer | SigClosed.

#[global] Instance RTCIceGatheringState_eq_dec : EqDecision RTCIceGatheringState.
Proof. solve_decision. Defined.
#[global] Instance RTCSignalingState_eq_dec : EqDecision RTCSignalingState.
Proof. solve_decision. Defined.

Record PeerConnection := mkPeerConnection {
  remoteTracks : list Track;
  iceGatheringState : RTCIceGatheringState;
  signalingState : RTCSignalingState;
  localDescription : option RTCSessionDescription;
}.

(** ** The fields of the class

    [responsePromiseChain] holds the index of a promise in the negotiation
    chain (see [System] below).  [disposables] holds the timeouts being
    tracked and [statePromiseMap] the states that have a deferred.
    [hangupReason] is not declared by the class; as a property of the
    object it reads [undefined] ([None]) until something assigns it. *)

Record PeerCall := mkPeerCall {
  peerConnection : PeerConnection;
  state : CallState;
  direction : option CallDirection;
  candidateSendQueue : list RTCIceCandidate;
  remoteCandidateBuffer : option (gmap string (list RTCIceCandidate));
  remoteSDPStreamMetadata : option SDPStreamMetadata;
  responsePromiseChain : option nat;
  opponentPartyId : option PartyId;
  hangupParty : option CallParty;
  hangupReason : option CallErrorCode;
  disposables : list nat;
  statePromiseMap : list CallState;
  localMedia : LocalMedia;
}.

(** ** Calls on the collaborators, in the order they are made *)

Inductive Effect :=
| PcSetLocalDescription (d : option RTCSessionDescription)
| PcSetRemoteDescription (d : option RTCSessionDescription)
| PcCreateAnswer
| PcAddIceCandidate (c : RTCIceCandidate)
| PcAddTrack (t : Track)
| PcReplaceTrack (oldTrack newTrack : Track)
| PcRemoveTrack (t : Track)
| PcNotifyStreamPurposeChanged
| PcClose
| TrackSetMuted (t : Track) (muted : bool)
| TrackStop (t : Track)
| EmitUpdate
| SendSignallingMessage (m : SignallingMessage)
| CreateTimeout (id : nat) (ms : Z)
| AbortTimeout (id : nat).

Record World := mkWorld {
  this : PeerCall;
  effects : list Effect;
}.

(** ** Suspended activations *)

(** What an activation is suspended on. [AwTick] is the await of a promise
    that is already settled: the activation still yields. *)
Inductive Awaitable :=
| AwLocalMedia (promise : nat)
| AwPeerConnection
| AwCreateAnswer
| AwSend
| AwElapsed (timeout : nat) (ms : Z)
| AwState (s : CallState)
| AwTick.

Definition result (aw : Awaitable) : Type :=
  match aw with
  | AwLocalMedia _ => LocalMedia
  | AwCreateAnswer => RTCSessionDescription
  | _ => unit
  end.

Inductive Outcome (A : Type) :=
| Resolved (v : A)
| Rejected.
Arguments Resolved {A} v.
Arguments Rejected {A}.

Record Step (T : Type) := mkStep {
  world : World;
  started : list T;
  rest : T;
}.
Arguments mkStep {T} world started rest.
Arguments world {T} s.
Arguments started {T} s.
Arguments rest {T} s.

(** Async methods that are re-entered from their own continuation. *)
Inductive Proc := PSendCandidateQueue.

(** An activation of an async method: fulfilled, rejected, or suspended on
    an awaitable with the code that runs at resumption.  [Enter p] only
    occurs in [started]: the method [p] was called, unawaited, as the last
    statement of a segment and has yet to run its synchronous prefix. *)
#[local] Unset Elimination Schemes.
Inductive Async :=
| Done
| Failed
| Await (aw : Awaitable) (k : Outcome (result aw) -> World -> Step Async)
| Enter (p : Proc).
#[local] Set Elimination Schemes.

(** [await f()] where [f] is itself async: the caller resumes one tick
    after the callee has settled. *)
Fixpoint andThen (t : Async) (k : Outcome unit -> World -> Step Async) : Async :=
  match t with
  | Done => Await AwTick (fun _ w => k (Resolved tt) w)
  | Failed => Await AwTick (fun _ w => k Rejected w)
  | Await aw k' =>
      Await aw (fun o w =>
        let st := k' o w in
        mkStep (world st) (started st) (andThen (rest st) k))
  | Enter p => Enter p
  end.

(** ** Field updates *)

Definition set_state (v : CallState) (p : PeerCall) : PeerCall :=
  mkPeerCall (peerConnection p) v (direction p) (candidateSendQueue p)
    (remoteCandidateBuffer p) (remoteSDPStreamMetadata p) (responsePromiseChain p)
    (opponentPartyId p) (hangupParty p) (hangupReason p) (disposables p)
    (statePromiseMap p) (localMedia p).

Definition set_direction (v : option CallDirection) (p : PeerCall) : PeerCall :=
  mkPeerCall (peerConnection p) (state p) v (candidateSendQueue p)
    (remoteCandidateBuffer p) (remoteSDPStreamMetadata p) (responsePromiseChain p)
    (opponentPartyId p) (hangupParty p) (hangupReason p) (disposables p)
    (statePromiseMap p) (localMedia p).

Definition set_candidateSendQueue (v : list RTCIceCandidate) (p : PeerCall) : PeerCall :=
  mkPeerCall (peerConnection p) (state p) (direction p) v
    (remoteCandidateBuffer p) (remoteSDPStreamMetadata p) (responsePromiseChain p)
    (opponentPartyId p) (hangupParty p) (hangupReason p) (disposables p)
    (statePromiseMap p) (localMedia p).

Definition set_remoteCandidateBuffer (v : option (gmap string (list RTCIceCandidate)))
    (p : PeerCall) : PeerCall :=
  mkPeerCall (peerConnection p) (state p) (direction p) (candidateSendQueue p)
    v (remoteSDPStreamMetadata p) (responsePromiseChain p)
    (opponentPartyId p) (hangupParty p) (hangupReason p) (disposables p)
    (statePromiseMap p) (localMedia p).

Definition set_remoteSDPStreamMetadata (v : option SDPStreamMetadata) (p : PeerCall) : PeerCall :=
  mkPeerCall (peerConnection p) (state p) (direction p) (candidateSendQueue p)
    (remoteCandidateBuffer p) v (responsePromiseChain p)
    (opponentPartyId p) (hangupParty p) (hangupReason p) (disposables p)
    (statePromiseMap p) (localMedia p).

Definition set_responsePromiseChain (v : option nat) (p : PeerCall) : PeerCall :=
  mkPeerCall (peerConnection p) (state p) (direction p) (candidateSendQueue p)
    (remoteCandidateBuffer p) (remoteSDPStreamMetadata p) v
    (opponentPartyId p) (hangupParty p) (hangupReason p) (disposables p)
    (statePromiseMap p) (localMedia p).

Definition set_opponentPartyId (v : option PartyId) (p : PeerCall) : PeerCall :=
  mkPeerCall (peerConnection p) (state p) (direction p) (candidateSendQueue p)
    (remoteCandidateBuffer p) (remoteSDPStreamMetadata p) (responsePromiseChain p)
    v (hangupParty p) (hangupReason p) (disposables p)
    (statePromiseMap p) (localMedia p).

Definition set_hangupParty (v : option CallParty) (p : PeerCall) : PeerCall :=
  mkPeerCall (peerConnection p) (state p) (direction p) (candidateSendQueue p)
    (remoteCandidateBuffer p) (remoteSDPStreamMetadata p) (responsePromiseChain p)
    (opponentPartyId p) v (hangupReason p) (disposables p)
    (statePromiseMap p) (localMedia p).

Definition set_disposables (v : list nat) (p : PeerCall) : PeerCall :=
  mkPeerCall (peerConnection p) (state p) (direction p) (candidateSendQueue p)
    (remoteCandidateBuffer p) (remoteSDPStreamMetadata p) (responsePromiseChain p)
    (opponentPartyId p) (hangupParty p) (hangupReason p) v
    (statePromiseMap p) (localMedia p).

Definition set_statePromiseMap (v : list CallState) (p : PeerCall) : PeerCall :=
  mkPeerCall (peerConnection p) (state p) (direction p) (candidateSendQueue p)
    (remoteCandidateBuffer p) (remoteSDPStreamMetadata p) (responsePromiseChain p)
    (opponentPartyId p) (hangupParty p) (hangupReason p) (disposables p)
    v (localMedia p).

Definition set_localMedia (v : LocalMedia) (p : PeerCall) : PeerCall :=
  mkPeerCall (peerConnection p) (state p) (direction p) (candidateSendQueue p)
    (remoteCandidateBuffer p) (remoteSDPStreamMetadata p) (responsePromiseChain p)
    (opponentPartyId p) (hangupParty p) (hangupReason p) (disposables p)
    (statePromiseMap p) v.

(** Assign fields of [this]. *)
Definition upd (f : PeerCall -> PeerCall) (w : World) : World :=
  mkWorld (f (this w)) (effects w).

(** Call a method of a collaborator. *)
Definition emit (e : Effect) (w : World) : World :=
  mkWorld (this w) (effects w ++ [e]).

(** ** Plumbing for steps *)

(** A method that returns without suspending. *)
Definition ret (w : World) : Step Async := mkStep w [] Done.

(** A method that throws (an async method: its promise rejects). *)
Definition throw (w : World) : Step Async := mkStep w [] Failed.

(** [await p] on a promise of a collaborator. *)
Definition await (aw : Awaitable) (w : World)
    (k : Outcome (result aw) -> World -> Step Async) : Step Async :=
  mkStep w [] (Await aw k).

(** [await f()] for an async method [f] of the class, inside try/catch. *)
Definition awaitCall (st : Step Async)
    (k : Outcome unit -> World -> Step Async) : Step Async :=
  mkStep (world st) (started st) (andThen (rest st) k).

(** [await f()] outside any try: a rejection propagates. *)
Definition awaitOk (st : Step Async) (k : World -> Step Async) : Step Async :=
  awaitCall st (fun o w => match o with Resolved _ => k w | Rejected => throw w end).

(** [f();] on an async method, without await, followed by [r]. *)
Definition detach (st : Step Async) (r : Async) : Step Async :=
  mkStep (world st) (started st ++ [rest st]) r.

(** Prefix the activations already started in this segment. *)
Definition fork (ts : list Async) (st : Step Async) : Step Async :=
  mkStep (world st) (ts ++ started st) (rest st).

(** ** The logger

    The object assigned to [this.logger] (l.78-83) has the methods [debug],
    [log], [warn] and [error]. A call of any other method is a call of
    [undefined] and throws a TypeError. *)
Inductive LoggerMethod := LogDebug | LogLog | LogWarn | LogError | LogInfo.

Definition loggerHas (method : LoggerMethod) : bool :=
  match method with
  | LogInfo => false
  | _ => true
  end.

(** [this.logger.method(...)] followed by [continue]; [thrown] is where the
    TypeError goes: the rejection of the async method, or its enclosing
    catch. *)
Definition logger {A} (method : LoggerMethod) (thrown continue : A) : A :=
  if loggerHas method then continue else thrown.

(** ** The methods of PeerCall *)

(** [setState] (l.455): assign, resolve and drop the deferred of that state
    if there is one, then [handler.emitUpdate(this, undefined)]. *)
Definition setState (st : CallState) (w : World) : World :=
  let w := upd (set_state st) w in
  let w :=
    if decide (st ∈ statePromiseMap (this w))
    then upd (set_statePromiseMap (filter (λ s, s ≠ st) (statePromiseMap (this w)))) w
    else w in
  emit EmitUpdate w.

(** [waitForState] (l.466): create the deferred on first use; the caller
    awaits [AwState st]. *)
Definition waitForState (st : CallState) (w : World) : World :=
  if decide (st ∈ statePromiseMap (this w)) then w
  else upd (set_statePromiseMap (statePromiseMap (this w) ++ [st])) w.

(** [terminate] (l.479-481): an async method with an empty body. *)
Definition terminate (hangupParty : CallParty) (hangupReason : CallErrorCode)
    (shouldEmit : bool) (w : World) : Step Async :=
  ret w.

(** [hangup] (l.159-161): declares no parameter and has an empty body; the
    argument of the call at l.228 is dropped. *)
Definition hangup (w : World) : Step Async :=
  ret w.

(** [stopAllMedia] (l.483). *)
Definition stopAllMedia (w : World) : World :=
  foldl (λ w track, emit (TrackStop track) w) w (tracks (localMedia (this w))).

(** [delay] (l.489): the new timeout is identified by its position in the
    log; it is tracked while awaited and untracked once elapsed.  An
    aborted timeout rejects. *)
Definition delay (timeoutMs : Z) (w : World) : Step Async :=
  let timeout := length (effects w) in
  let w := emit (CreateTimeout timeout timeoutMs) w in
  let w := upd (set_disposables (disposables (this w) ++ [timeout])) w in
  await (AwElapsed timeout timeoutMs) w (λ o w,
    match o with
    | Resolved _ =>
        ret (upd (set_disposables (filter (λ t, t ≠ timeout) (disposables (this w)))) w)
    | Rejected => throw w
    end).

(** Modelled from the spec: [recursivelyAssign] of utils/recursivelyAssign,
    which is not among the sources. The spec describes a merge of the
    incoming metadata into the existing map, one level deep (stream id to
    entry), where later values overwrite earlier ones. *)
Definition recursivelyAssign (target source : SDPStreamMetadata) : SDPStreamMetadata :=
  source ∪ target.

(** [updateRemoteSDPStreamMetadata] (l.405). *)
Definition updateRemoteSDPStreamMetadata (metadata : SDPStreamMetadata) (w : World) : World :=
  let w := upd (set_remoteSDPStreamMetadata
                  (Some (recursivelyAssign
                           (default ∅ (remoteSDPStreamMetadata (this w))) metadata))) w in
  let w := emit PcNotifyStreamPurposeChanged w in
  foldl (λ w track,
      match remoteSDPStreamMetadata (this w) ≫= (λ m, m !! streamId track) with
      | Some streamMetaData =>
          if decide (trackType track = Microphone)
          then emit (TrackSetMuted track (audio_muted streamMetaData)) w
          else emit (TrackSetMuted track (video_muted streamMetaData)) w
      | None => w
      end)
    w (remoteTracks (peerConnection (this w))).

(** The test of l.436-439: neither [sdpMid] nor [sdpMLineIndex] is given. *)
Definition noMidNoIndex (c : RTCIceCandidate) : bool :=
  match sdpMid c, sdpMLineIndex c with
  | None, None => true
  | _, _ => false
  end.

(** [addIceCandidates] (l.434). A rejected [addIceCandidate] is caught;
    [this.ignoreOffer] is not a field of the class and reads [undefined],
    so the catch block calls [this.logger.info] (l.448), which throws out
    of the loop. *)
Fixpoint addIceCandidates (candidates : list RTCIceCandidate) (w : World) : Step Async :=
  match candidates with
  | [] => ret w
  | candidate :: candidates =>
      if noMidNoIndex candidate then addIceCandidates candidates w
      else
        let w := emit (PcAddIceCandidate candidate) w in
        await AwPeerConnection w (λ o w,
          match o with
          | Resolved _ => addIceCandidates candidates w
          | Rejected => logger LogInfo (throw w) (addIceCandidates candidates w)
          end)
  end.

(** Truthiness of [this.opponentPartyId] (l.423): [undefined], [null] and
    the empty string are falsy. *)
Definition truthyPartyId (p : option PartyId) : option string :=
  match p with
  | Some (Some s) => if decide (s = "") then None else Some s
  | _ => None
  end.

(** [addBufferedIceCandidates] (l.422). When the opponent has an entry in
    the buffer, [this.logger.info] is called first (l.426). *)
Definition addBufferedIceCandidates (w : World) : Step Async :=
  match remoteCandidateBuffer (this w), truthyPartyId (opponentPartyId (this w)) with
  | Some buffer, Some party =>
      match buffer !! party with
      | Some bufferedCandidates =>
          logger LogInfo (throw w)
            (awaitOk (addIceCandidates bufferedCandidates w) (λ w,
               ret (upd (set_remoteCandidateBuffer None) w)))
      | None => ret (upd (set_remoteCandidateBuffer None) w)
      end
  | _, _ => ret w
  end.

(** [sendCandidateQueue] (l.379). After a successful send the method calls
    itself, unawaited, as its last statement. *)
Definition sendCandidateQueue (w : World) : Step Async :=
  if decide (length (candidateSendQueue (this w)) = 0 ∨ state (this w) = Ended)
  then ret w
  else
    let candidates := candidateSendQueue (this w) in
    let w := upd (set_candidateSendQueue []) w in
    let w := emit (SendSignallingMessage
                     (CandidatesMessage (mkCandidatesContent candidates))) w in
    await AwSend w (λ o w,
      match o with
      | Resolved _ => mkStep w [Enter PSendCandidateQueue] Done
      | Rejected => detach (terminate Local SignallingFailed false w) Done
      end).

(** [queueCandidate] (l.356): a synchronous method; the send is chained on
    the delay with [then] and nobody awaits it. *)
Definition queueCandidate (content : RTCIceCandidate) (w : World) : Step Async :=
  let w := upd (set_candidateSendQueue (candidateSendQueue (this w) ++ [content])) w in
  if decide (state (this w) = Ringing) then ret w
  else
    let ms := if decide (direction (this w) = Some Inbound) then 500%Z else 2000%Z in
    detach (awaitOk (delay ms w) (λ w, detach (sendCandidateQueue w) Done)) Done.

(** [sendAnswer] (l.325): reading [.sdp] of a missing local description
    throws; with the message built, [this.logger.info] is called (l.340)
    before the queue is emptied and the message sent. *)
Definition sendAnswer (w : World) : Step Async :=
  match localDescription (peerConnection (this w)) with
  | None => throw w
  | Some d =>
      let answerMessage :=
        AnswerMessage (mkAnwserContent (mkDesc (sdp d) (sdpType d))
                         (Some (getSDPMetadata (localMedia (this w))))) in
      logger LogInfo (throw w)
        (let w := upd (set_candidateSendQueue []) w in
         let w := emit (SendSignallingMessage answerMessage) w in
         await AwSend w (λ o w,
           match o with
           | Rejected => detach (terminate Local SendAnswer false w) Failed
           | Resolved _ => detach (sendCandidateQueue w) Done
           end))
  end.

(** [call] (l.101). *)
Definition call (localMediaPromise : nat) (w : World) : Step Async :=
  if decide (state (this w) ≠ Fledgling) then ret w
  else
    let w := upd (set_direction (Some Outbound)) w in
    let w := setState WaitLocalMedia w in
    await (AwLocalMedia localMediaPromise) w (λ o w,
      match o with
      | Rejected => ret (setState Ended w)
      | Resolved media =>
          let w := upd (set_localMedia media) w in
          let w := setState CreateOffer w in
          let w := foldl (λ w t, emit (PcAddTrack t) w) w (tracks (localMedia (this w))) in
          let w := waitForState InviteSent w in
          await (AwState InviteSent) w (λ o w,
            match o with
            | Resolved _ => ret w
            | Rejected => throw w
            end)
      end).

(** [answer] (l.121). *)
Definition answer (localMediaPromise : nat) (w : World) : Step Async :=
  if decide (state (this w) ≠ Ringing) then ret w
  else
    let w := setState WaitLocalMedia w in
    await (AwLocalMedia localMediaPromise) w (λ o w,
      match o with
      | Rejected => ret (setState Ended w)
      | Resolved media =>
          let w := upd (set_localMedia media) w in
          let w := setState CreateAnswer w in
          let w := foldl (λ w t, emit (PcAddTrack t) w) w (tracks (localMedia (this w))) in
          let w := emit PcCreateAnswer w in
          await AwCreateAnswer w (λ o w,
            match o with
            | Rejected => detach (terminate Local CreateAnswerFailed true w) Done
            | Resolved myAnswer =>
                let w := emit (PcSetLocalDescription (Some myAnswer)) w in
                await AwPeerConnection w (λ o w,
                  match o with
                  | Rejected => detach (terminate Local SetLocalDescription true w) Done
                  | Resolved _ =>
                      let w := setState Connecting w in
                      awaitOk (delay 200 w) (λ w, detach (sendAnswer w) Done)
                  end)
            end)
      end).

(** [handleNegotiation] (l.186), in three parts: up to the wait for
    candidate gathering (l.187-198), from the check for Ended to the Invite
    (l.200-221), and from the flush of the candidate queue to the invite
    timeout (l.222-230). Past the check for Ended, [this.logger.info] is
    called (l.207) before the queue is emptied. *)
Definition handleNegotiation_timeout (w : World) : Step Async :=
  let flush := sendCandidateQueue w in
  let w := world flush in
  let flushing := started flush ++ [rest flush] in
  if decide (state (this w) = CreateOffer)
  then
    fork flushing (awaitOk (delay CALL_TIMEOUT_MS w) (λ w,
      if decide (state (this w) = InviteSent)
      then detach (hangup w) Done
      else ret w))
  else mkStep w flushing Done.

Definition handleNegotiation_offer (w : World) : Step Async :=
  if decide (state (this w) = Ended) then ret w
  else
    let offer := localDescription (peerConnection (this w)) in
    logger LogInfo (throw w)
      (let w := upd (set_candidateSendQueue []) w in
       let content :=
         mkInviteContent offer (Some (getSDPMetadata (localMedia (this w))))
           (Some 1%Z) (Some CALL_TIMEOUT_MS) in
       if decide (state (this w) = CreateOffer)
       then
         let w := emit (SendSignallingMessage (InviteMessage content)) w in
         await AwSend w (λ o w,
           match o with
           | Rejected => throw w
           | Resolved _ => handleNegotiation_timeout (setState InviteSent w)
           end)
       else handleNegotiation_timeout w).

Definition handleNegotiation (w : World) : Step Async :=
  let w := emit (PcSetLocalDescription None) w in
  await AwPeerConnection w (λ o w,
    match o with
    | Rejected => detach (terminate Local SetLocalDescription true w) Done
    | Resolved _ =>
        if decide (iceGatheringState (peerConnection (this w)) = IceGathering)
        then awaitOk (delay 200 w) handleNegotiation_offer
        else handleNegotiation_offer w
    end).

(** [handleInvite] (l.233). *)
Definition handleInvite (content : InviteContent) (partyId : PartyId) (w : World)
    : Step Async :=
  if decide (state (this w) ≠ Fledgling ∨ opponentPartyId (this w) ≠ None) then ret w
  else
    let w := upd (set_opponentPartyId (Some partyId)) w in
    let w := upd (set_direction (Some Inbound)) w in
    let w :=
      match inv_sdp_stream_metadata content with
      | Some sdpStreamMetadata => updateRemoteSDPStreamMetadata sdpStreamMetadata w
      | None => w
      end in
    let w := emit (PcSetRemoteDescription (inv_offer content)) w in
    await AwPeerConnection w (λ o w,
      match o with
      | Rejected => detach (terminate Local SetRemoteDescription false w) Done
      | Resolved _ =>
          awaitCall (addBufferedIceCandidates w) (λ o w,
            match o with
            | Rejected => detach (terminate Local SetRemoteDescription false w) Done
            | Resolved _ =>
                if decide (length (remoteTracks (peerConnection (this w))) = 0)
                then detach (terminate Local SetRemoteDescription false w) Done
                else
                  let w := setState Ringing w in
                  awaitOk (delay (default CALL_TIMEOUT_MS (inv_lifetime content)) w) (λ w,
                    if decide (state (this w) = Ringing)
                    then
                      let w := upd (set_hangupParty (Some Remote)) w in
                      let w := setState Ended w in
                      let w := stopAllMedia w in
                      if decide (signalingState (peerConnection (this w)) ≠ SigClosed)
                      then ret (emit PcClose w)
                      else ret w
                    else ret w)
            end)
      end).

(** [handleAnswer] (l.287). With an opponent set, the Answer is to be
    ignored after a call of [this.logger.info] (l.296). *)
Definition handleAnswer (content : AnwserContent) (partyId : PartyId) (w : World)
    : Step Async :=
  if decide (state (this w) = Ended) then ret w
  else if decide (opponentPartyId (this w) ≠ None)
  then logger LogInfo (throw w) (ret w)
  else
    let w := upd (set_opponentPartyId (Some partyId)) w in
    awaitOk (addBufferedIceCandidates w) (λ w,
      let w := setState Connecting w in
      let w :=
        match ans_sdp_stream_metadata content with
        | Some sdpStreamMetadata => updateRemoteSDPStreamMetadata sdpStreamMetadata w
        | None => w
        end in
      let w := emit (PcSetRemoteDescription (Some (ans_answer content))) w in
      await AwPeerConnection w (λ o w,
        match o with
        | Rejected => detach (terminate Local SetRemoteDescription false w) Done
        | Resolved _ => ret w
        end)).

Section Dispatch.

(** [this.handleRemoteIceCandidates(message.content)] (l.95). The class
    defines no method of that name: as the class stands the call is a call
    of [undefined] and throws, synchronously ([notAFunction] below). The
    variable stands for what the call does, so that the dispatch can be
    stated for the class as it is and for one given the method. *)
Variable handleRemoteIceCandidates : CandidatesContent -> World -> Step Async.

(** [handleIncomingSignallingMessage] (l.86): a synchronous method; the
    handlers of Invite and Answer are async and not awaited. *)
Definition handleIncomingSignallingMessage (message : SignallingMessage)
    (partyId : PartyId) (w : World) : Step Async :=
  match message with
  | InviteMessage content => detach (handleInvite content partyId w) Done
  | AnswerMessage content => detach (handleAnswer content partyId w) Done
  | CandidatesMessage content => handleRemoteIceCandidates content w
  | HangupMessage _ => ret w
  | OtherMessage _ => ret w
  end.

End Dispatch.

(** The call at l.95 in the class as it is. *)
Definition notAFunction (content : CandidatesContent) (w : World) : Step Async :=
  throw w.

(** [setMedia] (l.163): the old media is read before the await; a rejected
    promise rejects the method before anything is assigned. *)
Definition applyTrack (oldTrack newTrack : option Track) (w : World) : World :=
  match oldTrack, newTrack with
  | Some oldTrack, Some newTrack => emit (PcReplaceTrack oldTrack newTrack) w
  | Some oldTrack, None => emit (PcRemoveTrack oldTrack) w
  | None, Some newTrack => emit (PcAddTrack newTrack) w
  | None, None => w
  end.

Definition setMedia (localMediaPromise : nat) (w : World) : Step Async :=
  let oldMedia := localMedia (this w) in
  await (AwLocalMedia localMediaPromise) w (λ o w,
    match o with
    | Rejected => throw w
    | Resolved media =>
        let w := upd (set_localMedia media) w in
        let w := applyTrack (microphoneTrack oldMedia)
                   (microphoneTrack (localMedia (this w))) w in
        let w := applyTrack (cameraTrack oldMedia)
                   (cameraTrack (localMedia (this w))) w in
        let w := applyTrack (screenShareTrack oldMedia)
                   (screenShareTrack (localMedia (this w))) w in
        ret w
    end).

(** Modelled from the spec: [dispose] (l.496) calls [dispose] on the
    tracker of timeouts, which is not among the sources; the spec has it
    cancel every live handle. The awaits of the cancelled timeouts reject
    when they are resumed. *)
Definition dispose (w : World) : World :=
  upd (set_disposables [])
    (foldl (λ w timeout, emit (AbortTimeout timeout) w) w (disposables (this w))).

(** The state of a call after the constructor (l.38-55). *)
Definition newPeerCall (pc : PeerConnection) (media : LocalMedia) : PeerCall :=
  mkPeerCall pc Fledgling None [] (Some ∅) None None None None None [] [] media.

(** ** Running activations *)

Definition body (p : Proc) : World -> Step Async :=
  match p with
  | PSendCandidateQueue => sendCandidateQueue
  end.

(** The end of a segment: the methods called as its last statement run
    their synchronous prefix. *)
Definition enter (acc : World * list Async) (t : Async) : World * list Async :=
  match t with
  | Enter p =>
      let st := body p acc.1 in
      (world st, acc.2 ++ started st ++ [rest st])
  | _ => (acc.1, acc.2 ++ [t])
  end.

Definition settle (st : Step Async) : Step Async :=
  let r := foldl enter (world st, []) (started st) in
  mkStep r.1 r.2 (rest st).

(** The outcome of whatever an activation awaits. *)
Definition Oracle := ∀ aw : Awaitable, Outcome (result aw).

Definition rejecting : Oracle := λ _, Rejected.

Definition resolving (media : LocalMedia) (description : RTCSessionDescription) : Oracle :=
  λ aw,
    match aw return Outcome (result aw) with
    | AwLocalMedia _ => Resolved media
    | AwCreateAnswer => Resolved description
    | AwPeerConnection => Resolved tt
    | AwSend => Resolved tt
    | AwElapsed _ _ => Resolved tt
    | AwState _ => Resolved tt
    | AwTick => Resolved tt
    end.

(** Resume a suspended activation: one segment. *)
Definition resume (o : Oracle) (t : Async) (w : World) : Step Async :=
  match t with
  | Await aw k => settle (k (o aw) w)
  | _ => mkStep w [] t
  end.

(** Resume an activation once per entry of the script, with nothing else
    running in between; the activations it starts are collected. Resuming
    a settled activation does nothing. *)
Fixpoint run (script : list Oracle) (t : Async) (w : World) : Step Async :=
  match script with
  | [] => mkStep w [] t
  | o :: script =>
      let st := resume o t w in
      fork (started st) (run script (rest st) (world st))
  end.

(** Call a method and run its activation along the script. *)
Definition runCall (script : list Oracle) (st : Step Async) : Step Async :=
  let st := settle st in
  fork (started st) (run script (rest st) (world st)).

(** ** The negotiation chain

    [onNegotiationNeeded] (l.70-73) is the only code that assigns
    [responsePromiseChain]: to the promise of [handleNegotiation] when the
    field is unset, and otherwise to [p.then(promiseCreator)] for the
    promise [p] the field holds. The promises so created are numbered in
    the order of the callbacks. A callback runs as a whole: the peer
    connection does not call [onNegotiationNeeded] from within a call made
    on it. *)

Inductive ChainPromise :=
| Chained (on : nat)   (* [p.then(promiseCreator)], callback not yet run *)
| Negotiating          (* follows a [handleNegotiation] that is in flight *)
| Fulfilled
| Broken.              (* rejected *)

#[global] Instance ChainPromise_eq_dec : EqDecision ChainPromise.
Proof. solve_decision. Defined.

(** Who an activation in the pool belongs to: the [handleNegotiation] behind
    promise [n], or a method that was called and not awaited. *)
Inductive Owner :=
| Negotiation (n : nat)
| Unawaited.

(** What happened to the negotiations, in order. *)
Inductive Mark :=
| Started (n : nat)
| Completed (n : nat).

Record System := mkSystem {
  now : World;
  pool : list (Owner * Async);
  chain : list ChainPromise;
  history : list Mark;
}.

(** Put an activation in the pool if it is still suspended; settle the
    promise it stands behind if it is not. *)
Definition place (s : System) (a : Owner * Async) : System :=
  match a with
  | (Negotiation n, Done) =>
      mkSystem (now s) (pool s) (<[n := Fulfilled]> (chain s)) (history s ++ [Completed n])
  | (Negotiation n, Failed) =>
      mkSystem (now s) (pool s) (<[n := Broken]> (chain s)) (history s ++ [Completed n])
  | (Unawaited, Done) => s
  | (Unawaited, Failed) => s
  | _ => mkSystem (now s) (pool s ++ [a]) (chain s) (history s)
  end.

(** The outcome of a segment run for [owner]. *)
Definition absorb (owner : Owner) (st : Step Async) (s : System) : System :=
  let s := mkSystem (world st) (pool s) (chain s) (history s) in
  let s := foldl place s (map (pair Unawaited) (started st)) in
  place s (owner, rest st).

(** [promiseCreator()] for promise [n]. *)
Definition promiseCreator (n : nat) (s : System) : System :=
  let s := mkSystem (now s) (pool s) (<[n := Negotiating]> (chain s))
             (history s ++ [Started n]) in
  absorb (Negotiation n) (settle (handleNegotiation (now s))) s.

(** [onNegotiationNeeded] (l.70). *)
Definition onNegotiationNeeded (s : System) : System :=
  let n := length (chain s) in
  let s :=
    match responsePromiseChain (this (now s)) with
    | Some p => mkSystem (now s) (pool s) (chain s ++ [Chained p]) (history s)
    | None =>
        promiseCreator n (mkSystem (now s) (pool s) (chain s ++ [Negotiating]) (history s))
    end in
  mkSystem (upd (set_responsePromiseChain (Some n)) (now s)) (pool s) (chain s) (history s).

(** What can happen to a call. *)
Inductive Event :=
| NegotiationNeeded                    (* the peer connection calls [onNegotiationNeeded] *)
| Reaction (n : nat)                   (* the job of promise [n]: its callback, or its rejection *)
| Resumption (i : nat) (o : Oracle)    (* the [i]-th activation of the pool is resumed *)
| Elsewhere (call : PeerCall) (calls : list Effect).
                                       (* other code of the class runs: any field but
                                          [responsePromiseChain] may change *)

Definition exec (s : System) (e : Event) : System :=
  match e with
  | NegotiationNeeded => onNegotiationNeeded s
  | Reaction n =>
      match chain s !! n with
      | Some (Chained p) =>
          match chain s !! p with
          | Some Fulfilled => promiseCreator n s
          | Some Broken => mkSystem (now s) (pool s) (<[n := Broken]> (chain s)) (history s)
          | _ => s
          end
      | _ => s
      end
  | Resumption i o =>
      match pool s !! i with
      | Some (owner, t) =>
          absorb owner (resume o t (now s))
            (mkSystem (now s) (delete i (pool s)) (chain s) (history s))
      | None => s
      end
  | Elsewhere call calls =>
      mkSystem
        (mkWorld (set_responsePromiseChain (responsePromiseChain (this (now s))) call)
                 (effects (now s) ++ calls))
        (pool s) (chain s) (history s)
  end.

Definition boot (w : World) : System := mkSystem w [] [] [].

(** The negotiations of a history run one at a time, in the order of their
    numbers: [serial k b h] when [k] negotiations have started in [h],
    numbered 0 to [k-1] in that order, each after the one before it has
    completed, and [b] tells whether the last one is still running. *)
Inductive serial : nat → bool → list Mark → Prop :=
| serial_nil : serial 0 false []
| serial_start k h : serial k false h → serial (S k) true (h ++ [Started k])
| serial_complete k h : serial (S k) true h → serial (S k) false (h ++ [Completed k]).

Definition isNegotiation (a : Owner * Async) : bool :=
  match a.1 with
  | Negotiation _ => true
  | Unawaited => false
  end.

Definition startedMark (m : Mark) : option nat :=
  match m with
  | Started n => Some n
  | Completed _ => None
  end.

(** ** Notions used to state the properties *)

Definition suspendedOrSettled (t : Async) : Prop :=
  match t with
  | Enter _ => False
  | _ => True
  end.

(** What the buffer holds for the opponent, as [addBufferedIceCandidates]
    looks it up (l.423-424): nothing when there is no buffer or when the
    opponent is the null party or the empty string. *)
Definition bufferedForOpponent (w : World) : option (list RTCIceCandidate) :=
  match remoteCandidateBuffer (this w), truthyPartyId (opponentPartyId (this w)) with
  | Some buffer, Some party => buffer !! party
  | _, _ => None
  end.

(** The world [addBufferedIceCandidates] returns in when the buffer holds
    nothing for the opponent: the buffer is dropped if the guard of l.423
    passes. *)
Definition afterDrain (w : World) : World :=
  match remoteCandidateBuffer (this w), truthyPartyId (opponentPartyId (this w)) with
  | Some _, Some _ => upd (set_remoteCandidateBuffer None) w
  | _, _ => w
  end.

(** The world once an Answer has been handled through to the end: the
    opponent recorded, the buffer dropped, the state Connecting, the
    metadata merged, the answer applied, in that order. *)
Definition answered (content : AnwserContent) (partyId : PartyId) (w : World) : World :=
  let w := upd (set_opponentPartyId (Some partyId)) w in
  let w := afterDrain w in
  let w := setState Connecting w in
  let w :=
    match ans_sdp_stream_metadata content with
    | Some sdpStreamMetadata => updateRemoteSDPStreamMetadata sdpStreamMetadata w
    | None => w
    end in
  emit (PcSetRemoteDescription (Some (ans_answer content))) w.

(** The first activation of a list. *)
Definition firstOf (ts : list Async) : Async := default Done (head ts).

(** Queue candidates one after the other; the activations started (one
    delayed send per candidate) are collected. *)
Definition queueAll (cs : list RTCIceCandidate) (w : World) : World * list Async :=
  foldl (λ acc c,
           let st := settle (queueCandidate c acc.1) in
           (world st, acc.2 ++ started st))
        (w, []) cs.

(** ** The invariant of the negotiation chain *)

(** An activation that never assigns [responsePromiseChain], nor do the
    activations it starts. *)
Fixpoint keeps (t : Async) : Prop :=
  match t with
  | Await aw k =>
      ∀ o w,
        responsePromiseChain (this (world (k o w))) = responsePromiseChain (this w) ∧
        keeps (rest (k o w)) ∧
        (fix all (ts : list Async) : Prop :=
           match ts with
           | [] => True
           | t :: ts => keeps t ∧ all ts
           end) (started (k o w))
  | _ => True
  end.

Definition keepsFrom (w : World) (st : Step Async) : Prop :=
  responsePromiseChain (this (world st)) = responsePromiseChain (this w) ∧
  keeps (rest st) ∧
  Forall keeps (started st).

(** Induction on activations. *)
Fixpoint Async_induction (P : Async → Prop)
    (HDone : P Done) (HFailed : P Failed) (HEnter : ∀ p, P (Enter p))
    (HAwait : ∀ aw k, (∀ o w, P (rest (k o w))) → P (Await aw k))
    (t : Async) : P t :=
  match t with
  | Done => HDone
  | Failed => HFailed
  | Enter p => HEnter p
  | Await aw k =>
      HAwait aw k (λ o w, Async_induction P HDone HFailed HEnter HAwait (rest (k o w)))
  end.

Definition settledPromise (c : ChainPromise) : Prop := c = Fulfilled ∨ c = Broken.

(** Promises from index [n] on that wait, each on the one before it. *)
Fixpoint waiting (n : nat) (l : list ChainPromise) : Prop :=
  match l with
  | [] => True
  | c :: l => c = Chained (pred n) ∧ 0 < n ∧ waiting (S n) l
  end.

(** An activation that is still suspended. *)
Definition pending (t : Async) : bool :=
  match t with
  | Done | Failed => false
  | _ => true
  end.

(** The chain is made of the promises of the negotiations that have
    completed ([old]), of the one in flight if any ([cur]), of promises
    rejected because the one before was ([dead]) and of promises that wait
    ([waits]). *)
Definition Shape (old cur dead waits : list ChainPromise) (s : System) : Prop :=
  chain s = old ++ cur ++ dead ++ waits ∧
  Forall settledPromise old ∧
  (cur = [] ∨ cur = [Negotiating]) ∧
  Forall (λ c, c = Broken) dead ∧
  waiting (length (old ++ cur ++ dead)) waits ∧
  serial (length old + length cur) (bool_decide (cur = [Negotiating])) (history s) ∧
  Forall (λ a, keeps a.2) (pool s) ∧
  length (filter (λ a, isNegotiation a) (pool s)) ≤ length cur ∧
  (∀ a n, a ∈ pool s → a.1 = Negotiation n → n = length old).

(** The field holds the last promise of the chain. *)
Definition FieldOk (s : System) : Prop :=
  responsePromiseChain (this (now s)) =
  match length (chain s) with
  | 0 => None
  | S n => Some n
  end.

Definition Inv (s : System) : Prop :=
  (∃ old cur dead waits, Shape old cur dead waits s) ∧ FieldOk s.

(** ** Sample calls *)

Definition micTrack : Track := mkTrack 1 Microphone "local-stream".
Definition camTrack : Track := mkTrack 2 Camera "local-stream".
Definition remoteMic : Track := mkTrack 7 Microphone "remote-stream".

Definition sampleMedia : LocalMedia :=
  mkLocalMedia [micTrack; camTrack]
    {[ "local-stream" := mkStreamMeta Usermedia false false ]}
    (Some micTrack) (Some camTrack) None.

Definition sampleConnection : PeerConnection :=
  mkPeerConnection [remoteMic] IceComplete SigStable (Some (mkDesc "v=0" "offer")).

Definition sampleAnswer : AnwserContent :=
  mkAnwserContent (mkDesc "v=0 a" "answer") None.

Definition sampleInvite : InviteContent :=
  mkInviteContent (Some (mkDesc "v=0 o" "offer")) None (Some 1%Z) None.

(** A call fresh from the constructor, and the same call put in a given
    state and direction. *)
Definition freshCall : World :=
  mkWorld (newPeerCall sampleConnection sampleMedia) [].

Definition callIn (st : CallState) (d : CallDirection) : World :=
  upd (set_direction (Some d)) (upd (set_state st) freshCall).

Definition allResolve : Oracle := resolving sampleMedia (mkDesc "v=0 a" "answer").

Definition candX1 : RTCIceCandidate := mkCandidate "x1" (Some "0") (Some 0%Z).
Definition candX2 : RTCIceCandidate := mkCandidate "x2" (Some "0") (Some 0%Z).
Definition candX3 : RTCIceCandidate := mkCandidate "x3" (Some "1") (Some 1%Z).
Definition candY1 : RTCIceCandidate := mkCandidate "y1" (Some "0") None.
Definition candY2 : RTCIceCandidate := mkCandidate "y2" None (Some 1%Z).
Definition candEnd : RTCIceCandidate := mkCandidate "" None None.

(** A call with candidates buffered from two parties, in a given state. *)
Definition bufferedCall (st : CallState) : World :=
  upd (set_remoteCandidateBuffer
         (Some {[ "X" := [candX1; candX2; candX3]; "Y" := [candY1; candEnd; candY2] ]}))
      (upd (set_state st) freshCall).

Definition fiveCandidates : list RTCIceCandidate :=
  [candX1; candX2; candX3; candY1; candEnd].

(** ** Notions used to state further properties *)

(** The world in which [delay] suspends, and the one it returns in. *)
Definition pendingDelay (ms : Z) (w : World) : World :=
  upd (set_disposables (disposables (this w) ++ [length (effects w)]))
    (emit (CreateTimeout (length (effects w)) ms) w).

Definition elapsedDelay (timeout : nat) (w : World) : World :=
  upd (set_disposables (filter (λ t, t ≠ timeout) (disposables (this w)))) w.

(** What [updateRemoteSDPStreamMetadata] stores, and the calls it makes. *)
Definition mergedMetadata (metadata : SDPStreamMetadata) (w : World) : SDPStreamMetadata :=
  recursivelyAssign (default ∅ (remoteSDPStreamMetadata (this w))) metadata.

Definition muteCalls (merged : SDPStreamMetadata) (remote : list Track) : list Effect :=
  omap (λ track,
          (λ streamMetaData,
             TrackSetMuted track
               (if decide (trackType track = Microphone)
                then audio_muted streamMetaData
                else video_muted streamMetaData)) <$> merged !! streamId track)
       remote.

Definition metadataCalls (metadata : option SDPStreamMetadata) (w : World) : list Effect :=
  match metadata with
  | Some metadata =>
      PcNotifyStreamPurposeChanged
      :: muteCalls (mergedMetadata metadata w) (remoteTracks (peerConnection (this w)))
  | None => []
  end.

(** [getPurposeForStreamId] (l.74-76), the callback the peer connection is
    given: the purpose recorded for the stream, Usermedia when there is
    none. *)
Definition getPurposeForStreamId (streamId : string) (w : World) : SDPStreamMetadataPurpose :=
  default Usermedia
    (purpose <$> (remoteSDPStreamMetadata (this w) ≫= (λ m, m !! streamId))).

(** ** What every activation maintains

    [stable R t]: every segment of the activation [t], resumed in whatever
    world, leaves a world related to that one by [R], and so do the
    activations it starts. *)
Section Stable.

Variable R : World → World → Prop.

Fixpoint stable (t : Async) : Prop :=
  match t with
  | Await aw k =>
      ∀ o w,
        R w (world (k o w)) ∧
        stable (rest (k o w)) ∧
        (fix all (ts : list Async) : Prop :=
           match ts with
           | [] => True
           | t :: ts => stable t ∧ all ts
           end) (started (k o w))
  | _ => True
  end.

Definition stableFrom (w : World) (st : Step Async) : Prop :=
  R w (world st) ∧ stable (rest st) ∧ Forall stable (started st).

End Stable.

(** ** Sessions

    What can be called on a [PeerCall] from outside: the public methods
    [call], [answer], [hangup], [setMedia],
    [handleIncomingSignallingMessage] and [dispose], and
    [handleNegotiation], which [onNegotiationNeeded] starts at once or
    chains on [responsePromiseChain]. A session interleaves such calls with
    the resumptions of the activations that are suspended, each with any
    outcome; the assignment of [responsePromiseChain] is an action of its
    own, so that a session may start a negotiation at any time. *)
Inductive EntryPoint :=
| DoCall (localMediaPromise : nat)
| DoAnswer (localMediaPromise : nat)
| DoHangup
| DoSetMedia (localMediaPromise : nat)
| DoSignalling (message : SignallingMessage) (partyId : PartyId)
| DoNegotiation
| DoDispose.

Inductive Action :=
| Invoke (e : EntryPoint)
| Resume (i : nat) (o : Oracle)
| AssignChain (promise : nat).

Record Session := mkSession {
  current : World;
  suspended : list Async;
}.

Definition collect (st : Step Async) (others : list Async) : Session :=
  mkSession (world st) (others ++ started st ++ [rest st]).

Section Sessions.

Variable handleRemoteIceCandidates : CandidatesContent → World → Step Async.

Definition invoke (e : EntryPoint) (w : World) : Step Async :=
  match e with
  | DoCall localMediaPromise => call localMediaPromise w
  | DoAnswer localMediaPromise => answer localMediaPromise w
  | DoHangup => hangup w
  | DoSetMedia localMediaPromise => setMedia localMediaPromise w
  | DoSignalling message partyId =>
      handleIncomingSignallingMessage handleRemoteIceCandidates message partyId w
  | DoNegotiation => handleNegotiation w
  | DoDispose => ret (dispose w)
  end.

Definition act (s : Session) (a : Action) : Session :=
  match a with
  | Invoke e => collect (settle (invoke e (current s))) (suspended s)
  | Resume i o =>
      match suspended s !! i with
      | Some t => collect (resume o t (current s)) (delete i (suspended s))
      | None => s
      end
  | AssignChain promise =>
      mkSession (upd (set_responsePromiseChain (Some promise)) (current s)) (suspended s)
  end.

Definition session (w : World) (actions : list Action) : Session :=
  foldl act (mkSession w []) actions.

End Sessions.

(** A call on a collaborator other than the sending of a Hangup message or
    of a message of an unknown type. *)
Definition noHangup (e : Effect) : Prop :=
  match e with
  | SendSignallingMessage (HangupMessage _) => False
  | SendSignallingMessage (OtherMessage _) => False
  | _ => True
  end.

Definition noCandidates (e : Effect) : Prop :=
  match e with
  | SendSignallingMessage (CandidatesMessage _) => False
  | _ => True
  end.

(** How a call may differ between two moments of a session. *)
Definition evolves (w w' : World) : Prop :=
  (opponentPartyId (this w) ≠ None →
   opponentPartyId (this w') = opponentPartyId (this w)) ∧
  (state (this w) ≠ Fledgling → state (this w') ≠ Fledgling) ∧
  hangupReason (this w') = hangupReason (this w) ∧
  (hangupParty (this w') = hangupParty (this w) ∨
   hangupParty (this w') = Some Remote) ∧
  (candidateSendQueue (this w) = [] → candidateSendQueue (this w') = []) ∧
  ∃ calls,
    effects w' = effects w ++ calls ∧
    Forall noHangup calls ∧
    (candidateSendQueue (this w) = [] → Forall noCandidates calls).

(** * MappedMap (the second part of the file, l.742-845)

    An observable map that holds, for each key of a source map, the value
    the mapper made of the source value. The notifications it sends to its
    subscribers, the calls of the updater and those on the source and on
    the base class are logged in the order they are made. *)

Section MappedMapModel.

Context {K : Type} `{Countable K} {V Params : Type}.

(** The mapper, applied to the value and to [_emitSpontaneousUpdate] bound
    to the key (l.787-788). *)
Variable mapper : K → V → V.

(** Whether the optional updater was given (l.745, l.807). *)
Variable updater : bool.

(** Truthiness of a mapped value ([if (value)], l.781, l.796), and whether
    it is [undefined] (l.806). *)
Variable truthy : V → bool.
Variable isUndefined : V → bool.

(** [emitUpdate] is named after its receiver here: the host of a
    [PeerCall] has an [emitUpdate] too. *)
Inductive MapCall :=
| EmitAdd (key : K) (mappedValue : V)
| EmitRemove (key : K) (mappedValue : V)
| MapEmitUpdate (key : K) (mappedValue : V) (params : Params)
| EmitReset
| UpdaterCall (params : Params) (mappedValue : V) (value : V)
| SourceSubscribe
| SubscriptionCall
| SuperOnSubscribeFirst
| SuperOnUnsubscribeLast.

Record MappedMap := mkMappedMap {
  _mappedValues : gmap K V;
  _subscription : bool;
  calls : list MapCall;
}.

(** The constructor (l.750-761). *)
Definition newMappedMap : MappedMap := mkMappedMap ∅ false [].

Definition emitting (c : MapCall) (m : MappedMap) : MappedMap :=
  mkMappedMap (_mappedValues m) (_subscription m) (calls m ++ [c]).

(** [get] (l.842) and [size] (l.838). *)
Definition get (key : K) (m : MappedMap) : option V := _mappedValues m !! key.

Definition mapSize (m : MappedMap) : nat := size (_mappedValues m).

(** [_emitSpontaneousUpdate] (l.779). *)
Definition _emitSpontaneousUpdate (key : K) (params : Params) (m : MappedMap) : MappedMap :=
  match get key m with
  | Some value => if truthy value then emitting (MapEmitUpdate key value params) m else m
  | None => m
  end.

(** [onAdd] (l.786). *)
Definition onAdd (key : K) (value : V) (m : MappedMap) : MappedMap :=
  let mappedValue := mapper key value in
  emitting (EmitAdd key mappedValue)
    (mkMappedMap (<[key := mappedValue]> (_mappedValues m)) (_subscription m) (calls m)).

(** [onRemove] (l.793): [Map.delete] tells whether the key was there. *)
Definition onRemove (key : K) (m : MappedMap) : MappedMap :=
  match get key m with
  | Some mappedValue =>
      let m := mkMappedMap (delete key (_mappedValues m)) (_subscription m) (calls m) in
      if truthy mappedValue then emitting (EmitRemove key mappedValue) m else m
  | None => m
  end.

(** [onUpdate] (l.800): [_mappedValues] is always a [Map], so the guard of
    l.802 never returns. *)
Definition onUpdate (key : K) (value : V) (params : Params) (m : MappedMap) : MappedMap :=
  match get key m with
  | Some mappedValue =>
      if isUndefined mappedValue then m
      else
        let m := if updater then emitting (UpdaterCall params mappedValue value) m else m in
        emitting (MapEmitUpdate key mappedValue params) m
  | None => m
  end.

(** [onSubscribeFirst] (l.813): the source is given by its entries. *)
Definition onSubscribeFirst (source : gmap K V) (m : MappedMap) : MappedMap :=
  let m := emitting SourceSubscribe (mkMappedMap (_mappedValues m) true (calls m)) in
  let mapped :=
    map_fold (λ key value mapped, <[key := mapper key value]> mapped)
      (_mappedValues m) source in
  emitting SuperOnSubscribeFirst (mkMappedMap mapped (_subscription m) (calls m)).

(** [onUnsubscribeLast] (l.823): calling the handle unsubscribes and
    returns nothing. *)
Definition onUnsubscribeLast (m : MappedMap) : MappedMap :=
  let m := emitting SuperOnUnsubscribeLast m in
  let m :=
    if _subscription m
    then emitting SubscriptionCall (mkMappedMap (_mappedValues m) false (calls m))
    else m in
  mkMappedMap ∅ (_subscription m) (calls m).

(** [onReset] (l.829). *)
Definition onReset (m : MappedMap) : MappedMap :=
  emitting EmitReset (mkMappedMap ∅ (_subscription m) (calls m)).

(** What reaches a subscribed [MappedMap]: the notifications of its source
    and the spontaneous updates of its mapped values. *)
Inductive Delivery :=
| Added (key : K) (value : V)
| Removed (key : K)
| Updated (key : K) (value : V) (params : Params)
| WasReset
| Spontaneous (key : K) (params : Params).

Definition deliver (m : MappedMap) (d : Delivery) : MappedMap :=
  match d with
  | Added key value => onAdd key value m
  | Removed key => onRemove key m
  | Updated key value params => onUpdate key value params m
  | WasReset => onReset m
  | Spontaneous key params => _emitSpontaneousUpdate key params m
  end.

(** The value each key of the source was added with. *)
Definition addedWith (source : gmap K V) (d : Delivery) : gmap K V :=
  match d with
  | Added key value => <[key := value]> source
  | Removed key => delete key source
  | WasReset => ∅
  | Updated _ _ _ | Spontaneous _ _ => source
  end.

End MappedMapModel.

(** * Properties *)

(** ** Termination *)

Lemma terminate_returns party reason shouldEmit w :
  terminate party reason shouldEmit w = ret w.
Proof. reflexivity. Qed.

Lemma hangup_returns w : hangup w = ret w.
Proof. reflexivity. Qed.

(** C1. [terminate] has an empty body: called with Local, UserHangup and
    emit = true on a connected call whose two local tracks are live and
    whose peer connection is open, it returns at once; the call is still
    Connected, no hangup party or reason is recorded, no track is stopped,
    the connection is not closed and no update is emitted. The same holds
    for every call and every argument. *)
Theorem terminate_does_not_end_the_call :
  (∀ party reason shouldEmit w, terminate party reason shouldEmit w = ret w) ∧
  let w := callIn Connected Outbound in
  let st := runCall [] (terminate Local UserHangup true w) in
  state (this w) = Connected ∧
  tracks (localMedia (this w)) = [micTrack; camTrack] ∧
  signalingState (peerConnection (this w)) = SigStable ∧
  state (this (world st)) = Connected ∧
  hangupParty (this (world st)) = None ∧
  hangupReason (this (world st)) = None ∧
  effects (world st) = [] ∧
  rest st = Done.
Proof. split; [reflexivity | repeat split]. Qed.

(** ** Dispatch of incoming messages *)

(** C6. A Hangup message delivered to [handleIncomingSignallingMessage]
    falls into a case without a body: whatever handles candidates, the
    method returns with the call unchanged. On a connected call the state
    stays Connected and no hangup party is recorded, where the
    specification has the call Ended with party Remote. A message of
    another kind leaves the call unchanged as well. *)
Theorem hangup_message_is_dropped :
  ∀ handleRemoteIceCandidates,
    (∀ reason partyId w,
        handleIncomingSignallingMessage handleRemoteIceCandidates
          (HangupMessage reason) partyId w = ret w) ∧
    (∀ type partyId w,
        handleIncomingSignallingMessage handleRemoteIceCandidates
          (OtherMessage type) partyId w = ret w) ∧
    let w := callIn Connected Outbound in
    let st := runCall [] (handleIncomingSignallingMessage handleRemoteIceCandidates
                            (HangupMessage (Some UserHangup)) (Some "B") w) in
    state (this (world st)) = Connected ∧
    hangupParty (this (world st)) = None ∧
    hangupReason (this (world st)) = None ∧
    effects (world st) = [].
Proof. intros h. repeat split. Qed.

(** ** call and answer *)

Lemma call_outside_Fledgling localMediaPromise w :
  state (this w) ≠ Fledgling → call localMediaPromise w = ret w.
Proof. intros H. unfold call. by rewrite decide_True. Qed.

Lemma answer_outside_Ringing localMediaPromise w :
  state (this w) ≠ Ringing → answer localMediaPromise w = ret w.
Proof. intros H. unfold answer. by rewrite decide_True. Qed.

(** C10. [call] in a state other than Fledgling and [answer] in a state
    other than Ringing return at once: the world is the one they were
    called on (every field of the call and the log of calls made on the
    peer connection and the host), nothing was started and the activation
    is complete. *)
Theorem call_answer_noop_outside_their_state :
  ∀ localMediaPromise w,
    (state (this w) ≠ Fledgling → call localMediaPromise w = ret w) ∧
    (state (this w) ≠ Ringing → answer localMediaPromise w = ret w).
Proof.
  intros p w. split.
  - apply call_outside_Fledgling.
  - apply answer_outside_Ringing.
Qed.

Lemma call_answer_noop_outside_their_state_witness :
  call 0 (callIn Connected Outbound) = ret (callIn Connected Outbound) ∧
  answer 0 (callIn Connected Outbound) = ret (callIn Connected Outbound).
Proof.
  split.
  - apply (proj1 (call_answer_noop_outside_their_state 0 (callIn Connected Outbound))).
    vm_compute. discriminate.
  - apply (proj2 (call_answer_noop_outside_their_state 0 (callIn Connected Outbound))).
    vm_compute. discriminate.
Defined.

(** ** Running an activation: general facts *)

Lemma world_eta (w : World) : mkWorld (this w) (effects w) = w.
Proof. by destruct w. Qed.

Lemma fork_nil (st : Step Async) : fork [] st = st.
Proof. by destruct st. Qed.

Lemma settle_nothing_started w t : settle (mkStep w [] t) = mkStep w [] t.
Proof. reflexivity. Qed.

Lemma run_settled script t w :
  (∀ aw k, t ≠ Await aw k) → run script t w = mkStep w [] t.
Proof.
  intros Ht. induction script as [|o script IH]; [done|].
  cbn [run]. destruct t as [| |aw k|p]; cbn; try (by rewrite IH).
  by destruct (Ht aw k).
Qed.

Lemma run_Done script w : run script Done w = mkStep w [] Done.
Proof. by apply run_settled. Qed.

Lemma run_Failed script w : run script Failed w = mkStep w [] Failed.
Proof. by apply run_settled. Qed.

Lemma run_Await o script aw k w :
  run (o :: script) (Await aw k) w =
  fork (started (settle (k (o aw) w)))
    (run script (rest (settle (k (o aw) w))) (world (settle (k (o aw) w)))).
Proof. reflexivity. Qed.

(** ** Running the steps of a method *)

Lemma setState_eq st w :
  setState st w =
  mkWorld
    (set_statePromiseMap (filter (λ s, s ≠ st) (statePromiseMap (this w)))
       (set_state st (this w)))
    (effects w ++ [EmitUpdate]).
Proof.
  unfold setState. cbn. destruct (decide _) as [|Hn]; [done|].
  unfold emit, upd. cbn. f_equal.
  assert (filter (λ s, s ≠ st) (statePromiseMap (this w)) = statePromiseMap (this w)) as ->.
  { induction (statePromiseMap (this w)) as [|s l IH]; [done|].
    apply not_elem_of_cons in Hn as [Hne Hn].
    rewrite filter_cons_True by done. by rewrite IH. }
  by destruct (this w).
Qed.

Lemma foldl_emit_eq {A} (f : A → Effect) (l : list A) : ∀ w,
  foldl (λ w a, emit (f a) w) w l = mkWorld (this w) (effects w ++ map f l).
Proof.
  induction l as [|a l IH]; intros w; cbn [foldl map].
  - by rewrite app_nil_r, world_eta.
  - rewrite IH. cbn. by rewrite <- app_assoc.
Qed.

Lemma settle_settled w ts r :
  Forall suspendedOrSettled ts → settle (mkStep w ts r) = mkStep w ts r.
Proof.
  intros Hts. unfold settle. cbn [world started rest].
  assert (∀ acc, foldl enter (w, acc) ts = (w, acc ++ ts)) as Hfold.
  { induction Hts as [|t ts Ht _ IH]; intros acc; cbn [foldl].
    - by rewrite app_nil_r.
    - destruct t as [| |aw k|p]; try done; cbn; rewrite IH; by rewrite <- app_assoc. }
  by rewrite Hfold.
Qed.

Lemma runCall_step w ts r script :
  Forall suspendedOrSettled ts →
  runCall script (mkStep w ts r) = fork ts (run script r w).
Proof. intros Hts. unfold runCall. by rewrite settle_settled. Qed.

Lemma runCall_await o script aw w k :
  runCall (o :: script) (await aw w k) = runCall script (k (o aw) w).
Proof.
  unfold await. rewrite runCall_step by done. by rewrite fork_nil, run_Await.
Qed.

Lemma runCall_ret script w : runCall script (ret w) = mkStep w [] Done.
Proof. unfold ret. rewrite runCall_step by done. by rewrite fork_nil, run_Done. Qed.

Lemma runCall_throw script w : runCall script (throw w) = mkStep w [] Failed.
Proof. unfold throw. rewrite runCall_step by done. by rewrite fork_nil, run_Failed. Qed.

Lemma runCall_nil w ts r :
  Forall suspendedOrSettled ts → runCall [] (mkStep w ts r) = mkStep w ts r.
Proof.
  intros Hts. rewrite runCall_step by done.
  unfold fork. cbn [run world started rest]. by rewrite app_nil_r.
Qed.

(** The world while a delay is pending, and once it has elapsed. *)
Lemma runCall_delay (o1 o2 : Oracle) script ms w k :
  o1 (AwElapsed (length (effects w)) ms) = Resolved () →
  runCall (o1 :: o2 :: script) (awaitOk (delay ms w) k) =
  runCall script (k (elapsedDelay (length (effects w)) (pendingDelay ms w))).
Proof.
  intros Ho. unfold awaitOk, awaitCall, delay. cbn [await world started rest andThen].
  rewrite runCall_step by done. rewrite fork_nil, run_Await, Ho.
  cbn [ret world started rest settle foldl fst snd andThen fork app].
  by rewrite run_Await.
Qed.

Lemma runCall_delay_aborted (o1 o2 : Oracle) script ms w k :
  o1 (AwElapsed (length (effects w)) ms) = Rejected →
  runCall (o1 :: o2 :: script) (awaitOk (delay ms w) k) =
  mkStep (pendingDelay ms w) [] Failed.
Proof.
  intros Ho. unfold awaitOk, awaitCall, delay. cbn [await world started rest andThen].
  rewrite runCall_step by done. rewrite fork_nil, run_Await, Ho.
  cbn [throw world started rest settle foldl fst snd andThen fork app].
  rewrite run_Await. cbn [throw world started rest settle foldl fst snd fork app].
  by rewrite run_Failed.
Qed.

(** Normal form of lists built with [++]. *)
Ltac reassoc :=
  repeat match goal with
         | |- context [(?l ++ ?m) ++ ?n] => rewrite <- (app_assoc l m n)
         end;
  cbn [app].

Ltac fields :=
  cbn [this effects upd emit peerConnection state direction candidateSendQueue
       remoteCandidateBuffer remoteSDPStreamMetadata responsePromiseChain
       opponentPartyId hangupParty hangupReason disposables statePromiseMap
       localMedia set_state set_direction set_candidateSendQueue
       set_remoteCandidateBuffer set_remoteSDPStreamMetadata
       set_responsePromiseChain set_opponentPartyId set_hangupParty
       set_disposables set_statePromiseMap set_localMedia].

Ltac flatten :=
  unfold pendingDelay, elapsedDelay; rewrite ?setState_eq, ?foldl_emit_eq; fields.

Lemma run_delay_resumed (o1 o2 : Oracle) script ms w k w' :
  o1 (AwElapsed (length (effects w)) ms) = Resolved () →
  run (o1 :: o2 :: script) (rest (awaitOk (delay ms w) k)) w' =
  runCall script (k (elapsedDelay (length (effects w)) w')).
Proof.
  intros Ho. unfold awaitOk, awaitCall, delay. cbn [await world started rest andThen].
  rewrite run_Await, Ho.
  cbn [ret world started rest settle foldl fst snd andThen fork app].
  by rewrite run_Await.
Qed.

Lemma runCall_pending_delay ms w k :
  runCall [] (awaitOk (delay ms w) k) =
  mkStep (pendingDelay ms w) [] (rest (awaitOk (delay ms w) k)).
Proof. reflexivity. Qed.


Lemma run_delay_aborted (o1 o2 : Oracle) script ms w k w' :
  o1 (AwElapsed (length (effects w)) ms) = Rejected →
  run (o1 :: o2 :: script) (rest (awaitOk (delay ms w) k)) w' = mkStep w' [] Failed.
Proof.
  intros Ho. unfold awaitOk, awaitCall, delay. cbn [await world started rest andThen].
  rewrite run_Await, Ho.
  cbn [throw world started rest settle foldl fst snd andThen fork app].
  rewrite run_Await. cbn [throw world started rest settle foldl fst snd fork app].
  by rewrite run_Failed.
Qed.

Lemma elapsedDelay_state timeout w : state (this (elapsedDelay timeout w)) = state (this w).
Proof. reflexivity. Qed.

Lemma runCall_awaitCall_ret (o : Oracle) script w k :
  runCall (o :: script) (awaitCall (ret w) k) = runCall script (k (Resolved ()) w).
Proof. apply (runCall_await o script AwTick w (λ _ w, k (Resolved ()) w)). Qed.

Lemma runCall_awaitCall_throw (o : Oracle) script w k :
  runCall (o :: script) (awaitCall (throw w) k) = runCall script (k Rejected w).
Proof. apply (runCall_await o script AwTick w (λ _ w, k Rejected w)). Qed.

(** ** Facts about the synchronous helpers *)

Lemma setState_state st w : state (this (setState st w)) = st.
Proof. unfold setState. by destruct (decide _). Qed.

Lemma setState_effects st w : effects (setState st w) = effects w ++ [EmitUpdate].
Proof. unfold setState. by destruct (decide _). Qed.

Lemma setState_opponentPartyId st w :
  opponentPartyId (this (setState st w)) = opponentPartyId (this w).
Proof. unfold setState. by destruct (decide _). Qed.

Lemma setState_hangup st w :
  hangupParty (this (setState st w)) = hangupParty (this w) ∧
  hangupReason (this (setState st w)) = hangupReason (this w).
Proof. unfold setState. by destruct (decide _). Qed.

Lemma setState_direction st w :
  direction (this (setState st w)) = direction (this w).
Proof. unfold setState. by destruct (decide _). Qed.

Lemma setState_candidateSendQueue st w :
  candidateSendQueue (this (setState st w)) = candidateSendQueue (this w).
Proof. unfold setState. by destruct (decide _). Qed.

(** [addBufferedIceCandidates] never suspends: it throws at l.426 when the
    buffer holds something for the opponent, and returns otherwise. *)
Lemma addBufferedIceCandidates_eq w :
  addBufferedIceCandidates w =
  match bufferedForOpponent w with
  | Some _ => throw w
  | None => ret (afterDrain w)
  end.
Proof.
  unfold addBufferedIceCandidates, bufferedForOpponent, afterDrain.
  destruct (remoteCandidateBuffer (this w)) as [buffer|]; [|done].
  destruct (truthyPartyId _) as [party|]; [|done].
  by destruct (buffer !! party).
Qed.

Lemma afterDrain_frame w :
  peerConnection (this (afterDrain w)) = peerConnection (this w) ∧
  state (this (afterDrain w)) = state (this w) ∧
  direction (this (afterDrain w)) = direction (this w) ∧
  candidateSendQueue (this (afterDrain w)) = candidateSendQueue (this w) ∧
  remoteSDPStreamMetadata (this (afterDrain w)) = remoteSDPStreamMetadata (this w) ∧
  opponentPartyId (this (afterDrain w)) = opponentPartyId (this w) ∧
  hangupParty (this (afterDrain w)) = hangupParty (this w) ∧
  hangupReason (this (afterDrain w)) = hangupReason (this w) ∧
  disposables (this (afterDrain w)) = disposables (this w) ∧
  statePromiseMap (this (afterDrain w)) = statePromiseMap (this w) ∧
  localMedia (this (afterDrain w)) = localMedia (this w) ∧
  effects (afterDrain w) = effects w.
Proof.
  unfold afterDrain. destruct (remoteCandidateBuffer _); [|done].
  by destruct (truthyPartyId _).
Qed.

Lemma afterDrain_effects w : effects (afterDrain w) = effects w.
Proof. apply afterDrain_frame. Qed.

(** What the buffer holds for the opponent depends on the buffer and on the
    opponent only. *)
Lemma bufferedForOpponent_ext w w' :
  remoteCandidateBuffer (this w) = remoteCandidateBuffer (this w') →
  opponentPartyId (this w) = opponentPartyId (this w') →
  bufferedForOpponent w = bufferedForOpponent w' ∧
  remoteCandidateBuffer (this (afterDrain w)) = remoteCandidateBuffer (this (afterDrain w')).
Proof.
  unfold bufferedForOpponent, afterDrain. intros H1 H2. rewrite H1, H2.
  split; [done|].
  destruct (remoteCandidateBuffer (this w')) eqn:Hb; [|by rewrite H1, Hb].
  destruct (truthyPartyId _); [done|by rewrite H1, Hb].
Qed.

(** ** Stream metadata *)

Lemma muteCalls_cons merged track remote :
  muteCalls merged (track :: remote) =
  match merged !! streamId track with
  | Some streamMetaData =>
      TrackSetMuted track
        (if decide (trackType track = Microphone)
         then audio_muted streamMetaData
         else video_muted streamMetaData)
      :: muteCalls merged remote
  | None => muteCalls merged remote
  end.
Proof. unfold muteCalls. simpl. by destruct (merged !! streamId track). Qed.

Lemma updateRemoteSDPStreamMetadata_eq metadata w :
  updateRemoteSDPStreamMetadata metadata w =
  mkWorld (set_remoteSDPStreamMetadata (Some (mergedMetadata metadata w)) (this w))
    (effects w ++ metadataCalls (Some metadata) w).
Proof.
  unfold updateRemoteSDPStreamMetadata, metadataCalls. fold (mergedMetadata metadata w).
  set (w1 := emit PcNotifyStreamPurposeChanged _).
  assert (∀ remote w',
    remoteSDPStreamMetadata (this w') = Some (mergedMetadata metadata w) →
    foldl (λ w track,
      match remoteSDPStreamMetadata (this w) ≫= (λ m, m !! streamId track) with
      | Some streamMetaData =>
          if decide (trackType track = Microphone)
          then emit (TrackSetMuted track (audio_muted streamMetaData)) w
          else emit (TrackSetMuted track (video_muted streamMetaData)) w
      | None => w
      end) w' remote =
    mkWorld (this w') (effects w' ++ muteCalls (mergedMetadata metadata w) remote)) as Hfold.
  { induction remote as [|t remote IH]; intros w' Hw'.
    - cbn. by rewrite app_nil_r, world_eta.
    - cbn [foldl]. rewrite Hw'. cbn [mbind option_bind]. rewrite muteCalls_cons.
      destruct (mergedMetadata metadata w !! streamId t) as [md|].
      + destruct (decide _); rewrite IH by exact Hw'; cbn [this effects emit];
          by rewrite <- app_assoc.
      + by apply IH. }
  rewrite Hfold by done. unfold w1. cbn. by rewrite <- app_assoc.
Qed.

(** X1. [updateRemoteSDPStreamMetadata] stores the merged metadata and
    changes no other field; it notifies the peer connection once and then
    calls [setMuted] once for each remote track whose stream has an entry
    in the merged metadata, in the order of the tracks, with the audio flag
    for a microphone track and the video flag for any other. A track whose
    stream has no entry is not touched. *)
Theorem metadata_update_mutes_known_streams :
  ∀ metadata w,
    let w' := updateRemoteSDPStreamMetadata metadata w in
    this w' =
      set_remoteSDPStreamMetadata (Some (mergedMetadata metadata w)) (this w) ∧
    effects w' =
      effects w ++
      PcNotifyStreamPurposeChanged
      :: muteCalls (mergedMetadata metadata w) (remoteTracks (peerConnection (this w))) ∧
    (∀ track muted,
       TrackSetMuted track muted ∈
         muteCalls (mergedMetadata metadata w) (remoteTracks (peerConnection (this w))) ↔
       track ∈ remoteTracks (peerConnection (this w)) ∧
       ∃ streamMetaData,
         mergedMetadata metadata w !! streamId track = Some streamMetaData ∧
         muted = if decide (trackType track = Microphone)
                 then audio_muted streamMetaData
                 else video_muted streamMetaData).
Proof.
  intros metadata w. cbv zeta. rewrite updateRemoteSDPStreamMetadata_eq.
  split; [done|]. split; [done|].
  intros track muted. unfold muteCalls. rewrite list_elem_of_omap. split.
  - intros (t & Ht & Hcall).
    destruct (mergedMetadata metadata w !! streamId t) as [md|] eqn:Hmd; [|done].
    cbn in Hcall. injection Hcall as <- <-. split; [done|]. by exists md.
  - intros (Ht & md & Hmd & ->). exists track. split; [done|]. by rewrite Hmd.
Qed.

(** ** The remote candidate buffer *)

(** An accepted Invite up to the await of [setRemoteDescription]
    (l.242-256), and what follows it. *)
Lemma handleInvite_offered content partyId w :
  state (this w) = Fledgling →
  opponentPartyId (this w) = None →
  ∃ wA k,
    handleInvite content partyId w = await AwPeerConnection wA k ∧
    k Rejected = (λ w, detach (terminate Local SetRemoteDescription false w) Done) ∧
    k (Resolved ()) =
      (λ w, awaitCall (addBufferedIceCandidates w) (λ o w,
         match o with
         | Rejected => detach (terminate Local SetRemoteDescription false w) Done
         | Resolved _ =>
             if decide (length (remoteTracks (peerConnection (this w))) = 0)
             then detach (terminate Local SetRemoteDescription false w) Done
             else
               let w := setState Ringing w in
               awaitOk (delay (default CALL_TIMEOUT_MS (inv_lifetime content)) w) (λ w,
                 if decide (state (this w) = Ringing)
                 then
                   let w := upd (set_hangupParty (Some Remote)) w in
                   let w := setState Ended w in
                   let w := stopAllMedia w in
                   if decide (signalingState (peerConnection (this w)) ≠ SigClosed)
                   then ret (emit PcClose w)
                   else ret w
                 else ret w)
         end)) ∧
    this wA =
      match inv_sdp_stream_metadata content with
      | Some metadata =>
          set_remoteSDPStreamMetadata (Some (mergedMetadata metadata w))
            (set_direction (Some Inbound) (set_opponentPartyId (Some partyId) (this w)))
      | None =>
          set_direction (Some Inbound) (set_opponentPartyId (Some partyId) (this w))
      end ∧
    effects wA =
      effects w ++ metadataCalls (inv_sdp_stream_metadata content) w ++
      [PcSetRemoteDescription (inv_offer content)].
Proof.
  intros Hs Hopp. unfold handleInvite.
  rewrite decide_False by (rewrite Hs, Hopp; by intros [?|?]). cbv zeta.
  eexists _, _. split; [reflexivity|]. split; [reflexivity|]. split; [reflexivity|].
  destruct (inv_sdp_stream_metadata content) as [metadata|].
  - rewrite updateRemoteSDPStreamMetadata_eq. fields. split; [done|].
    unfold metadataCalls, mergedMetadata. fields. by reassoc.
  - by fields.
Qed.

(** An accepted Invite whose offer is applied, up to the return of
    [addBufferedIceCandidates]: the catch of l.257 when the buffer holds
    something for the sender, the check for remote tracks (l.266)
    otherwise. The opponent and the direction are recorded and nothing
    else of the call has changed but the buffer. *)
Lemma runCall_handleInvite_offer_applied content partyId w (o tick : Oracle) script :
  state (this w) = Fledgling →
  opponentPartyId (this w) = None →
  o AwPeerConnection = Resolved () →
  ∃ wA,
    (peerConnection (this wA) = peerConnection (this w) ∧
     state (this wA) = Fledgling ∧
     direction (this wA) = Some Inbound ∧
     opponentPartyId (this wA) = Some partyId ∧
     hangupParty (this wA) = hangupParty (this w) ∧
     disposables (this wA) = disposables (this w) ∧
     remoteCandidateBuffer (this wA) = remoteCandidateBuffer (this w) ∧
     bufferedForOpponent wA =
       bufferedForOpponent (upd (set_opponentPartyId (Some partyId)) w) ∧
     remoteCandidateBuffer (this (afterDrain wA)) =
       remoteCandidateBuffer (this (afterDrain (upd (set_opponentPartyId (Some partyId)) w))) ∧
     effects wA =
       effects w ++ metadataCalls (inv_sdp_stream_metadata content) w ++
       [PcSetRemoteDescription (inv_offer content)]) ∧
    runCall (o :: tick :: script) (handleInvite content partyId w) =
    match bufferedForOpponent wA with
    | Some _ => mkStep wA [Done] Done
    | None =>
        runCall script
          (if decide (length (remoteTracks (peerConnection (this wA))) = 0)
           then detach (terminate Local SetRemoteDescription false (afterDrain wA)) Done
           else
             let w := setState Ringing (afterDrain wA) in
             awaitOk (delay (default CALL_TIMEOUT_MS (inv_lifetime content)) w) (λ w,
               if decide (state (this w) = Ringing)
               then
                 let w := upd (set_hangupParty (Some Remote)) w in
                 let w := setState Ended w in
                 let w := stopAllMedia w in
                 if decide (signalingState (peerConnection (this w)) ≠ SigClosed)
                 then ret (emit PcClose w)
                 else ret w
               else ret w))
    end.
Proof.
  intros Hs Hopp Ho.
  destruct (handleInvite_offered content partyId w Hs Hopp)
    as (wA & k & -> & _ & Hk & HthisA & HeffA).
  rewrite runCall_await, Ho, Hk. clear k Hk.
  exists wA. split.
  - destruct (bufferedForOpponent_ext wA (upd (set_opponentPartyId (Some partyId)) w))
      as (Hbuffered & Hbuffer);
      [rewrite HthisA; by destruct (inv_sdp_stream_metadata content)..|].
    rewrite HthisA.
    split_and!; try (by destruct (inv_sdp_stream_metadata content)); done.
  - rewrite addBufferedIceCandidates_eq.
    destruct (bufferedForOpponent wA) as [bufferedCandidates|].
    + rewrite runCall_awaitCall_throw.
      unfold terminate, detach, ret. cbn [world started rest app].
      rewrite runCall_step by (by repeat constructor). rewrite run_Done.
      by cbn.
    + rewrite runCall_awaitCall_ret.
      destruct (afterDrain_frame wA) as (-> & _). done.
Qed.

(** C4. The candidates buffered for the opponent are never added to the
    peer connection. When the buffer holds an entry for the opponent,
    [addBufferedIceCandidates] throws at its call of [this.logger.info]
    (l.426), a method the logger does not have: no [addIceCandidate] is
    made and the buffer stays. Otherwise it returns, and it has dropped the
    buffer unless the opponent is the null party or the empty string, for
    which the guard of l.423 fails. Whatever the world and however often it
    is resumed, it makes no call on the peer connection. An Invite from a
    party with buffered candidates therefore ends in the catch of l.257:
    the call stays Fledgling with the buffer as it was. Were
    [addIceCandidates] reached, a rejected [addIceCandidate] would make it
    throw from its catch block (l.448). *)
Theorem buffered_candidates_are_never_added :
  ∀ w,
    match bufferedForOpponent w with
    | Some _ => addBufferedIceCandidates w = throw w
    | None => addBufferedIceCandidates w = ret (afterDrain w)
    end ∧
    (truthyPartyId (opponentPartyId (this w)) = None →
     addBufferedIceCandidates w = ret w) ∧
    (∀ script,
       effects (world (runCall script (addBufferedIceCandidates w))) = effects w) ∧
    (∀ content partyId (o tick : Oracle) script bufferedCandidates,
       state (this w) = Fledgling →
       opponentPartyId (this w) = None →
       o AwPeerConnection = Resolved () →
       bufferedForOpponent (upd (set_opponentPartyId (Some partyId)) w) =
         Some bufferedCandidates →
       let st := runCall (o :: tick :: script) (handleInvite content partyId w) in
       rest st = Done ∧
       state (this (world st)) = Fledgling ∧
       opponentPartyId (this (world st)) = Some partyId ∧
       remoteCandidateBuffer (this (world st)) = remoteCandidateBuffer (this w) ∧
       effects (world st) =
         effects w ++ metadataCalls (inv_sdp_stream_metadata content) w ++
         [PcSetRemoteDescription (inv_offer content)]) ∧
    (∀ candidate candidates (o : Oracle) w',
       noMidNoIndex candidate = false →
       o AwPeerConnection = Rejected →
       resume o (rest (addIceCandidates (candidate :: candidates) w)) w' = throw w').
Proof.
  intros w. split_and!.
  - rewrite addBufferedIceCandidates_eq. by destruct (bufferedForOpponent w).
  - intros Hfalsy. rewrite addBufferedIceCandidates_eq.
    unfold bufferedForOpponent, afterDrain. rewrite Hfalsy.
    by destruct (remoteCandidateBuffer (this w)).
  - intros script. rewrite addBufferedIceCandidates_eq.
    destruct (bufferedForOpponent w).
    + by rewrite runCall_throw.
    + rewrite runCall_ret. apply afterDrain_effects.
  - intros content partyId o tick script cs Hs Hopp Ho Hcs. cbv zeta.
    destruct (runCall_handleInvite_offer_applied content partyId w o tick script Hs Hopp Ho)
      as (wA & (Hpc & Hst & Hdir & HoppA & Hhp & Hdisp & Hbuf & Hbuffered & _ & Heff) & ->).
    rewrite Hbuffered, Hcs. by cbn.
  - intros candidate candidates o w' Hc Ho.
    cbn [addIceCandidates]. rewrite Hc. cbn [await rest resume]. by rewrite Ho.
Qed.

Lemma buffered_candidates_are_never_added_witness :
  let w := bufferedCall Fledgling in
  let st := runCall [allResolve; allResolve] (handleInvite sampleInvite (Some "X") w) in
  bufferedForOpponent (upd (set_opponentPartyId (Some (Some "X"))) w) =
    Some [candX1; candX2; candX3] ∧
  rest st = Done ∧
  state (this (world st)) = Fledgling ∧
  remoteCandidateBuffer (this (world st)) = remoteCandidateBuffer (this w) ∧
  effects (world st) = [PcSetRemoteDescription (inv_offer sampleInvite)].
Proof.
  destruct (proj1 (proj2 (proj2 (proj2
              (buffered_candidates_are_never_added (bufferedCall Fledgling)))))
              sampleInvite (Some "X") allResolve allResolve [] [candX1; candX2; candX3]
              eq_refl eq_refl eq_refl eq_refl)
    as (Hr & Hs & _ & Hb & He).
  cbv zeta. split; [reflexivity|]. split; [exact Hr|]. split; [exact Hs|].
  split; [exact Hb|]. exact He.
Defined.

(** ** Committing to an opponent *)

Lemma handleInvite_ignored content partyId w :
  state (this w) ≠ Fledgling ∨ opponentPartyId (this w) ≠ None →
  handleInvite content partyId w = ret w.
Proof. intros H. unfold handleInvite. by rewrite decide_True. Qed.

(** An Answer on a call that has an opponent is not taken: [handleAnswer]
    returns when the call has Ended, and throws at l.296 otherwise. *)
Lemma handleAnswer_not_taken content partyId w :
  opponentPartyId (this w) ≠ None →
  handleAnswer content partyId w =
  if decide (state (this w) = Ended) then ret w else throw w.
Proof.
  intros H. unfold handleAnswer.
  destruct (decide (state (this w) = Ended)); [done|]. by rewrite decide_True.
Qed.

(** The first suspension of [handleAnswer] on a call without opponent. *)
Lemma handleAnswer_committed content partyId w :
  state (this w) ≠ Ended →
  opponentPartyId (this w) = None →
  ∃ k,
    handleAnswer content partyId w =
    awaitOk (addBufferedIceCandidates (upd (set_opponentPartyId (Some partyId)) w)) k ∧
    k = (λ w,
      let w := setState Connecting w in
      let w :=
        match ans_sdp_stream_metadata content with
        | Some sdpStreamMetadata => updateRemoteSDPStreamMetadata sdpStreamMetadata w
        | None => w
        end in
      let w := emit (PcSetRemoteDescription (Some (ans_answer content))) w in
      await AwPeerConnection w (λ o w,
        match o with
        | Rejected => detach (terminate Local SetRemoteDescription false w) Done
        | Resolved _ => ret w
        end)).
Proof.
  intros Hs Ho. unfold handleAnswer.
  rewrite decide_False by done. rewrite decide_False by (by intros ?).
  by eexists.
Qed.

(** C3. [handleInvite] returns with the world unchanged unless the state is
    Fledgling and no opponent is set. When [handleInvite] (in Fledgling,
    no opponent) or [handleAnswer] (not Ended, no opponent) takes a
    message, the world in which it first suspends already has
    [opponentPartyId] equal to the sender's party id. In any world where
    an opponent is set, no further Invite or Answer is accepted, from
    whatever party: [handleInvite] returns with the world unchanged, and
    [handleAnswer] returns (when the call has Ended) or throws at its call
    of [this.logger.info] (l.296), with the world unchanged and nothing
    started. *)
Theorem opponent_committed_before_first_await :
  ∀ invite answer partyId w,
    (state (this w) ≠ Fledgling ∨ opponentPartyId (this w) ≠ None →
       handleInvite invite partyId w = ret w) ∧
    (state (this w) = Fledgling → opponentPartyId (this w) = None →
       opponentPartyId (this (world (handleInvite invite partyId w))) = Some partyId ∧
       ∃ aw k, rest (handleInvite invite partyId w) = Await aw k) ∧
    (state (this w) ≠ Ended → opponentPartyId (this w) = None →
       opponentPartyId (this (world (handleAnswer answer partyId w))) = Some partyId ∧
       ∃ aw k, rest (handleAnswer answer partyId w) = Await aw k) ∧
    (∀ w' invite' answer' partyId',
       opponentPartyId (this w') ≠ None →
       handleInvite invite' partyId' w' = ret w' ∧
       handleAnswer answer' partyId' w' =
         if decide (state (this w') = Ended) then ret w' else throw w').
Proof.
  intros invite answer partyId w. split; [|split; [|split]].
  - apply handleInvite_ignored.
  - intros Hs Ho.
    destruct (handleInvite_offered invite partyId w Hs Ho) as (wA & k & -> & _ & _ & HthisA & _).
    split; [|by eexists AwPeerConnection, _].
    cbn [await world]. rewrite HthisA.
    by destruct (inv_sdp_stream_metadata invite).
  - intros Hs Ho.
    destruct (handleAnswer_committed answer partyId w Hs Ho) as (k & -> & _).
    rewrite addBufferedIceCandidates_eq.
    destruct (bufferedForOpponent _).
    + split; [done|]. by eexists AwTick, _.
    + split; [|by eexists AwTick, _].
      cbn [awaitOk awaitCall ret world].
      by destruct (afterDrain_frame (upd (set_opponentPartyId (Some partyId)) w))
        as (_ & _ & _ & _ & _ & -> & _).
  - intros w' i a p H. split.
    + apply handleInvite_ignored. by right.
    + by apply handleAnswer_not_taken.
Qed.

Lemma opponent_committed_before_first_await_witness :
  opponentPartyId
    (this (world (handleInvite sampleInvite (Some "B") freshCall))) = Some (Some "B") ∧
  opponentPartyId
    (this (world (handleAnswer sampleAnswer None (callIn InviteSent Outbound)))) = Some None ∧
  handleInvite sampleInvite (Some "C") (callIn Connecting Outbound) =
    ret (callIn Connecting Outbound) ∧
  handleAnswer sampleAnswer (Some "C")
    (world (handleAnswer sampleAnswer (Some "B") (callIn InviteSent Outbound))) =
    throw (world (handleAnswer sampleAnswer (Some "B") (callIn InviteSent Outbound))).
Proof.
  split; [|split; [|split]].
  - apply (proj1 (proj2 (opponent_committed_before_first_await
                           sampleInvite sampleAnswer (Some "B") freshCall)));
      reflexivity.
  - apply (proj1 (proj2 (proj2 (opponent_committed_before_first_await
                           sampleInvite sampleAnswer None (callIn InviteSent Outbound))))).
    + vm_compute. discriminate.
    + reflexivity.
  - apply (proj1 (opponent_committed_before_first_await
                    sampleInvite sampleAnswer (Some "C") (callIn Connecting Outbound))).
    left. vm_compute. discriminate.
  - apply (proj2 (proj2 (proj2 (proj2 (opponent_committed_before_first_await
                    sampleInvite sampleAnswer (Some "B") freshCall)))
             (world (handleAnswer sampleAnswer (Some "B") (callIn InviteSent Outbound)))
             sampleInvite sampleAnswer (Some "C")
             ltac:(vm_compute; discriminate))).
Defined.

(** ** Answers *)

Lemma metadataCalls_ext metadata w w' :
  remoteSDPStreamMetadata (this w) = remoteSDPStreamMetadata (this w') →
  peerConnection (this w) = peerConnection (this w') →
  metadataCalls metadata w = metadataCalls metadata w'.
Proof.
  intros H1 H2. unfold metadataCalls, mergedMetadata. by rewrite H1, H2.
Qed.

(** C5. [handleAnswer] returns with the world unchanged when the call has
    Ended. When an opponent is set, whether or not it is the sender, it
    throws at its call of [this.logger.info] (l.296): the world is
    unchanged and the promise rejects. Otherwise it records the sender as
    opponent, and then: if the buffer holds candidates of the sender,
    [addBufferedIceCandidates] throws (l.426) and [handleAnswer] rejects
    with nothing else done, the state as it was and no remote description
    set, where the specification has the answer applied; if the buffer
    holds nothing for the sender, it completes in the world [answered]: the
    buffer dropped, the state Connecting, and the calls made are, in this
    order, the update for Connecting, the notification of the merged
    metadata with the mute calls (when the Answer carries metadata), and
    the answer as remote description. *)
Theorem handleAnswer_ignores_rejects_or_applies :
  ∀ content partyId w,
    (state (this w) = Ended → handleAnswer content partyId w = ret w) ∧
    (state (this w) ≠ Ended → opponentPartyId (this w) ≠ None →
     handleAnswer content partyId w = throw w) ∧
    (state (this w) ≠ Ended → opponentPartyId (this w) = None →
     let committed := upd (set_opponentPartyId (Some partyId)) w in
     ∀ (tick o : Oracle) script,
       match bufferedForOpponent committed with
       | Some _ =>
           runCall (tick :: script) (handleAnswer content partyId w) =
           mkStep committed [] Failed
       | None =>
           let st := runCall (tick :: o :: script) (handleAnswer content partyId w) in
           rest st = Done ∧
           world st = answered content partyId w ∧
           opponentPartyId (this (world st)) = Some partyId ∧
           state (this (world st)) = Connecting ∧
           effects (world st) =
             effects w ++ [EmitUpdate] ++
             metadataCalls (ans_sdp_stream_metadata content) w ++
             [PcSetRemoteDescription (Some (ans_answer content))]
       end).
Proof.
  intros content partyId w. split_and!.
  - intros Hs. unfold handleAnswer. by rewrite decide_True.
  - intros Hs Ho. rewrite handleAnswer_not_taken by done. by rewrite decide_False.
  - intros Hs Ho. cbv zeta. intros tick o script.
    destruct (handleAnswer_committed content partyId w Hs Ho) as (k & -> & ->).
    set (w1 := upd (set_opponentPartyId (Some partyId)) w).
    rewrite addBufferedIceCandidates_eq.
    destruct (bufferedForOpponent w1) as [bufferedCandidates|] eqn:Hbuffered.
    + unfold awaitOk. rewrite runCall_awaitCall_throw. by rewrite runCall_throw.
    + unfold awaitOk. rewrite runCall_awaitCall_ret. cbv zeta.
      rewrite runCall_await.
      assert (runCall script
                (match o AwPeerConnection with
                 | Resolved _ => ret (answered content partyId w)
                 | Rejected =>
                     detach (terminate Local SetRemoteDescription false
                               (answered content partyId w)) Done
                 end) =
              mkStep (answered content partyId w)
                (match o AwPeerConnection with Resolved _ => [] | Rejected => [Done] end)
                Done) as Hrun.
      { destruct (o AwPeerConnection).
        - by rewrite runCall_ret.
        - unfold terminate, detach, ret. cbn [world started rest app].
          rewrite runCall_step by (by repeat constructor). by rewrite run_Done. }
      unfold answered in Hrun |- *. fold w1 in Hrun |- *. cbv zeta in Hrun.
      rewrite Hrun. cbn [world rest].
      destruct (afterDrain_frame w1)
        as (Hpc & Hst & Hdir & Hq & Hmeta & Hopp & Hhp & Hhr & Hdisp & Hmap & Hmedia & Heff).
      split; [done|]. split; [done|].
      destruct (ans_sdp_stream_metadata content) as [metadata|].
      * rewrite updateRemoteSDPStreamMetadata_eq. rewrite setState_eq. fields.
        rewrite Hopp, Heff. split; [done|]. split; [done|].
        rewrite (metadataCalls_ext (Some metadata) _ w)
          by (fields; by rewrite ?Hmeta, ?Hpc).
        by reassoc.
      * rewrite setState_eq. fields. rewrite Hopp, Heff.
        split; [done|]. split; [done|]. by reassoc.
Qed.

Lemma handleAnswer_ignores_rejects_or_applies_witness :
  let w := bufferedCall InviteSent in
  let st := runCall [allResolve; allResolve] (handleAnswer sampleAnswer (Some "Y") w) in
  bufferedForOpponent (upd (set_opponentPartyId (Some (Some "Y"))) w) =
    Some [candY1; candEnd; candY2] ∧
  rest st = Failed ∧
  state (this (world st)) = InviteSent ∧
  effects (world st) = [] ∧
  rest (runCall [allResolve; allResolve]
          (handleAnswer sampleAnswer (Some "Z") w)) = Done ∧
  handleAnswer sampleAnswer (Some "Y")
    (upd (set_opponentPartyId (Some (Some "Y"))) w) =
  throw (upd (set_opponentPartyId (Some (Some "Y"))) w).
Proof.
  pose (w := bufferedCall InviteSent).
  pose proof (proj2 (proj2 (handleAnswer_ignores_rejects_or_applies sampleAnswer (Some "Y") w))
                ltac:(vm_compute; discriminate) eq_refl allResolve allResolve [allResolve])
    as Hfail.
  pose proof (proj2 (proj2 (handleAnswer_ignores_rejects_or_applies sampleAnswer (Some "Z") w))
                ltac:(vm_compute; discriminate) eq_refl allResolve allResolve [])
    as Happly.
  pose proof (proj1 (proj2 (handleAnswer_ignores_rejects_or_applies sampleAnswer (Some "Y")
                              (upd (set_opponentPartyId (Some (Some "Y"))) w)))
                ltac:(vm_compute; discriminate) ltac:(vm_compute; discriminate))
    as Hrefused.
  cbv zeta. fold w.
  split; [reflexivity|].
  change (bufferedForOpponent (upd (set_opponentPartyId (Some (Some "Y"))) w))
    with (Some [candY1; candEnd; candY2]) in Hfail.
  change (bufferedForOpponent (upd (set_opponentPartyId (Some (Some "Z"))) w))
    with (@None (list RTCIceCandidate)) in Happly.
  cbv beta iota zeta in Hfail, Happly.
  rewrite Hfail. split; [reflexivity|]. split; [reflexivity|]. split; [reflexivity|].
  split; [exact (proj1 Happly)|]. exact Hrefused.
Defined.

(** ** Failure to get local media *)

(** When the media promise given to [call] rejects, the call ends but the
    reason NoUserMedia is not recorded. *)
Lemma call_media_rejected_records_no_reason :
  let st := runCall [rejecting] (call 0 freshCall) in
  ¬ (state (this (world st)) = Ended ∧
     hangupReason (this (world st)) = Some NoUserMedia).
Proof. vm_compute. intros [_ H]. discriminate. Qed.

(** C9. If [call] is made in Fledgling and the local-media promise
    rejects, the call ends through [setState] alone: the state is Ended
    and the direction Outbound, but the hangup party and the hangup reason
    are as they were, where the specification has the reason NoUserMedia
    recorded. The catch block of l.109-112 does not call [terminate], as
    every other failure exit of the class does with its reason, and
    nothing else assigns a reason. The only calls made are the two updates
    for WaitLocalMedia and Ended, so no track was added to the peer
    connection, and [call] has returned. *)
Theorem call_media_rejected_ends_call :
  ∀ localMediaPromise w (o : Oracle),
    state (this w) = Fledgling →
    o (AwLocalMedia localMediaPromise) = Rejected →
    let st := runCall [o] (call localMediaPromise w) in
    rest st = Done ∧
    started st = [] ∧
    state (this (world st)) = Ended ∧
    direction (this (world st)) = Some Outbound ∧
    hangupParty (this (world st)) = hangupParty (this w) ∧
    hangupReason (this (world st)) = hangupReason (this w) ∧
    effects (world st) = effects w ++ [EmitUpdate; EmitUpdate].
Proof.
  intros p w o Hs Ho. unfold call.
  rewrite decide_False by (rewrite Hs; by intros ?).
  unfold runCall. cbn [await settle started world rest foldl fst snd fork app].
  rewrite run_Await, Ho.
  cbn [ret settle started world rest foldl fst snd fork app]. rewrite run_Done.
  cbn [world rest started].
  repeat split.
  - apply setState_state.
  - by rewrite !setState_direction.
  - by rewrite !(proj1 (setState_hangup _ _)).
  - by rewrite !(proj2 (setState_hangup _ _)).
  - rewrite !setState_effects. cbn. by rewrite <- app_assoc.
Qed.

Lemma call_media_rejected_ends_call_witness :
  let st := runCall [rejecting] (call 0 freshCall) in
  state (this (world st)) = Ended ∧
  hangupParty (this (world st)) = None ∧
  hangupReason (this (world st)) = None ∧
  effects (world st) = [EmitUpdate; EmitUpdate].
Proof.
  destruct (call_media_rejected_ends_call 0 freshCall rejecting eq_refl eq_refl)
    as (_ & _ & Hs & _ & Hp & Hr & He).
  cbv zeta.
  split; [exact Hs|]. split; [exact Hp|]. split; [exact Hr|]. exact He.
Defined.

(** ** The candidate queue *)


Lemma queueCandidate_Ringing content w :
  state (this w) = Ringing →
  queueCandidate content w =
  ret (upd (set_candidateSendQueue (candidateSendQueue (this w) ++ [content])) w).
Proof. intros H. unfold queueCandidate. by rewrite decide_True. Qed.

Lemma queueCandidate_schedules content w :
  state (this w) ≠ Ringing →
  let ms := if decide (direction (this w) = Some Inbound) then 500%Z else 2000%Z in
  let st := queueCandidate content w in
  candidateSendQueue (this (world st)) = candidateSendQueue (this w) ++ [content] ∧
  effects (world st) = effects w ++ [CreateTimeout (length (effects w)) ms] ∧
  rest st = Done ∧
  ∃ k, started st = [Await (AwElapsed (length (effects w)) ms) k].
Proof.
  intros H. unfold queueCandidate. rewrite decide_False by done.
  cbn. repeat split. by eexists.
Qed.

Lemma sendCandidateQueue_drains w :
  length (candidateSendQueue (this w)) ≠ 0 → state (this w) ≠ Ended →
  ∃ k,
    sendCandidateQueue w =
    mkStep
      (emit (SendSignallingMessage
               (CandidatesMessage (mkCandidatesContent (candidateSendQueue (this w)))))
            (upd (set_candidateSendQueue []) w))
      [] (Await AwSend k) ∧
    ∀ w', k Rejected w' = mkStep w' [Done] Done.
Proof.
  intros Hq Hs. unfold sendCandidateQueue.
  rewrite decide_False by (intros [?|?]; done).
  eexists. split; [reflexivity|]. done.
Qed.

(** C7. Five candidates are queued on an outbound call in Connecting; each
    schedules a delay of 2000 ms. When the first delay elapses the whole
    queue goes out in one Candidates message, in arrival order. When that
    send fails, [sendCandidateQueue] calls [terminate] with Local and
    SignallingFailed, and nothing happens: the state is still Connecting
    and no hangup party or reason is recorded, where the specification
    has the call terminated. The candidates are not put back in the queue. *)
Theorem failed_candidates_send_does_not_end_the_call :
  let w := callIn Connecting Outbound in
  let queued := queueAll fiveCandidates w in
  let elapsed := run [allResolve; allResolve] (firstOf queued.2) queued.1 in
  let failed := run [rejecting] (firstOf (started elapsed)) (world elapsed) in
  effects queued.1 =
    [CreateTimeout 0 2000; CreateTimeout 1 2000; CreateTimeout 2 2000;
     CreateTimeout 3 2000; CreateTimeout 4 2000] ∧
  candidateSendQueue (this queued.1) = fiveCandidates ∧
  effects (world elapsed) =
    effects queued.1 ++
    [SendSignallingMessage (CandidatesMessage (mkCandidatesContent fiveCandidates))] ∧
  candidateSendQueue (this (world elapsed)) = [] ∧
  rest failed = Done ∧
  state (this (world failed)) = Connecting ∧
  hangupParty (this (world failed)) = None ∧
  hangupReason (this (world failed)) = None ∧
  candidateSendQueue (this (world failed)) = [] ∧
  effects (world failed) = effects (world elapsed).
Proof. vm_compute. repeat split. Qed.

(** ** The invite timeout *)


Lemma run_app a : ∀ b t w,
  run (a ++ b) t w =
  fork (started (run a t w)) (run b (rest (run a t w)) (world (run a t w))).
Proof.
  induction a as [|o a IH]; intros b t w.
  - cbn. by rewrite fork_nil.
  - cbn [app run]. rewrite IH. unfold fork. cbn. by rewrite app_assoc.
Qed.

(** Once an activation is complete, further resumptions change nothing. *)
Lemma runCall_more a b st :
  rest (runCall a st) = Done →
  world (runCall (a ++ b) st) = world (runCall a st).
Proof.
  unfold runCall. cbn [fork rest world]. intros H.
  by rewrite run_app, H, run_Done.
Qed.

(** [handleNegotiation] past the wait for candidate gathering: it returns
    when the call has Ended and throws at l.207 otherwise. *)
Lemma handleNegotiation_offer_eq w :
  handleNegotiation_offer w =
  if decide (state (this w) = Ended) then ret w else throw w.
Proof. unfold handleNegotiation_offer. by destruct (decide _). Qed.

Lemma runCall_handleNegotiation w (o : Oracle) script :
  o AwPeerConnection = Resolved () →
  iceGatheringState (peerConnection (this w)) ≠ IceGathering →
  runCall (o :: script) (handleNegotiation w) =
  mkStep (emit (PcSetLocalDescription None) w) []
    (if decide (state (this w) = Ended) then Done else Failed).
Proof.
  intros Ho Hice. unfold handleNegotiation. cbv zeta. rewrite runCall_await, Ho.
  rewrite decide_False by exact Hice. rewrite handleNegotiation_offer_eq.
  change (state (this (emit (PcSetLocalDescription None) w))) with (state (this w)).
  destruct (decide _); [apply runCall_ret | apply runCall_throw].
Qed.


(** ** Nothing but [onNegotiationNeeded] assigns the chain *)

Lemma keeps_Await aw k :
  keeps (Await aw k) ↔ ∀ o w, keepsFrom w (k o w).
Proof.
  assert (∀ ts, (fix all (ts : list Async) : Prop :=
                   match ts with
                   | [] => True
                   | t :: ts => keeps t ∧ all ts
                   end) ts ↔ Forall keeps ts) as Hall.
  { induction ts as [|t ts IH]; [by split|].
    rewrite Forall_cons. by rewrite IH. }
  unfold keepsFrom. cbn [keeps]. split; intros H o w.
  - destruct (H o w) as (? & ? & ?). by rewrite <- Hall.
  - destruct (H o w) as (? & ? & ?). by rewrite Hall.
Qed.

Lemma keepsFrom_ret w w' :
  responsePromiseChain (this w') = responsePromiseChain (this w) → keepsFrom w (ret w').
Proof. intros H. by repeat split. Qed.

Lemma keepsFrom_throw w w' :
  responsePromiseChain (this w') = responsePromiseChain (this w) → keepsFrom w (throw w').
Proof. intros H. by repeat split. Qed.

Lemma keepsFrom_await w aw w' k :
  responsePromiseChain (this w') = responsePromiseChain (this w) →
  (∀ o w'', keepsFrom w'' (k o w'')) →
  keepsFrom w (await aw w' k).
Proof. intros H Hk. split; [done|]. split; [by apply keeps_Await | done]. Qed.

Lemma keeps_andThen t k :
  keeps t → (∀ o w, keepsFrom w (k o w)) → keeps (andThen t k).
Proof.
  intros Ht Hk. induction t as [| |p|aw k' IH] using Async_induction.
  - apply keeps_Await. intros _ w. apply Hk.
  - apply keeps_Await. intros _ w. apply Hk.
  - done.
  - cbn [andThen]. apply keeps_Await. intros o w.
    destruct (proj1 (keeps_Await aw k') Ht o w) as (Hf & Hr & Hs).
    split; [done|]. split; [|done]. cbn [rest]. by apply IH.
Qed.

Lemma keepsFrom_awaitCall w st k :
  keepsFrom w st → (∀ o w', keepsFrom w' (k o w')) → keepsFrom w (awaitCall st k).
Proof.
  intros (Hf & Hr & Hs) Hk. split; [done|]. split; [|done].
  by apply keeps_andThen.
Qed.

Lemma keepsFrom_awaitOk w st k :
  keepsFrom w st → (∀ w', keepsFrom w' (k w')) → keepsFrom w (awaitOk st k).
Proof.
  intros Hst Hk. apply keepsFrom_awaitCall; [done|].
  intros [v|] w'; [apply Hk | by apply keepsFrom_throw].
Qed.

Lemma keepsFrom_detach w st r :
  keepsFrom w st → keeps r → keepsFrom w (detach st r).
Proof.
  intros (Hf & Hr & Hs) Hk. split; [done|]. split; [done|].
  cbn. apply Forall_app. split; [done|]. by constructor.
Qed.

Lemma keepsFrom_fork w ts st :
  Forall keeps ts → keepsFrom w st → keepsFrom w (fork ts st).
Proof.
  intros Hts (Hf & Hr & Hs). split; [done|]. split; [done|].
  cbn. by apply Forall_app.
Qed.

Lemma keepsFrom_trans w w' st :
  responsePromiseChain (this w') = responsePromiseChain (this w) →
  keepsFrom w' st → keepsFrom w st.
Proof. intros H (Hf & Hr & Hs). split; [congruence | done]. Qed.

Lemma setState_responsePromiseChain st w :
  responsePromiseChain (this (setState st w)) = responsePromiseChain (this w).
Proof. unfold setState. by destruct (decide _). Qed.

Lemma keepsFrom_delay ms w : keepsFrom w (delay ms w).
Proof.
  unfold delay. apply keepsFrom_await; [done|].
  intros [v|] w'; [by apply keepsFrom_ret | by apply keepsFrom_throw].
Qed.

Lemma keepsFrom_terminate party reason shouldEmit w :
  keepsFrom w (terminate party reason shouldEmit w).
Proof. by apply keepsFrom_ret. Qed.

Lemma keepsFrom_hangup w : keepsFrom w (hangup w).
Proof. by apply keepsFrom_ret. Qed.

Lemma keepsFrom_sendCandidateQueue w : keepsFrom w (sendCandidateQueue w).
Proof.
  unfold sendCandidateQueue. destruct (decide _); [by apply keepsFrom_ret|].
  apply keepsFrom_await; [done|].
  intros [v|] w'.
  - split; [done|]. split; [done|]. by repeat constructor.
  - apply keepsFrom_detach; [apply keepsFrom_terminate | done].
Qed.

Lemma keepsFrom_handleNegotiation_timeout w :
  keepsFrom w (handleNegotiation_timeout w).
Proof.
  unfold handleNegotiation_timeout.
  destruct (keepsFrom_sendCandidateQueue w) as (Hf & Hr & Hs).
  assert (Forall keeps (started (sendCandidateQueue w) ++ [rest (sendCandidateQueue w)]))
    as Hflush.
  { apply Forall_app. split; [done|]. by constructor. }
  destruct (decide _).
  - apply keepsFrom_fork; [done|].
    apply (keepsFrom_trans _ (world (sendCandidateQueue w))); [done|].
    apply keepsFrom_awaitOk; [apply keepsFrom_delay|].
    intros w'. destruct (decide _).
    + apply keepsFrom_detach; [apply keepsFrom_hangup | done].
    + by apply keepsFrom_ret.
  - by split.
Qed.

Lemma keepsFrom_handleNegotiation_offer w :
  keepsFrom w (handleNegotiation_offer w).
Proof.
  rewrite handleNegotiation_offer_eq.
  destruct (decide _); [by apply keepsFrom_ret | by apply keepsFrom_throw].
Qed.

Lemma keepsFrom_handleNegotiation w : keepsFrom w (handleNegotiation w).
Proof.
  unfold handleNegotiation. apply keepsFrom_await; [done|].
  intros [v|] w'.
  - destruct (decide _).
    + apply keepsFrom_awaitOk; [apply keepsFrom_delay|].
      apply keepsFrom_handleNegotiation_offer.
    + apply keepsFrom_handleNegotiation_offer.
  - apply keepsFrom_detach; [apply keepsFrom_terminate | done].
Qed.

Lemma keepsFrom_body p w : keepsFrom w (body p w).
Proof. destruct p. apply keepsFrom_sendCandidateQueue. Qed.

Lemma keepsFrom_settle w st : keepsFrom w st → keepsFrom w (settle st).
Proof.
  intros (Hf & Hr & Hs). unfold settle.
  assert (∀ ts acc,
            Forall keeps ts → Forall keeps acc.2 →
            responsePromiseChain (this (foldl enter acc ts).1) =
              responsePromiseChain (this acc.1) ∧
            Forall keeps (foldl enter acc ts).2) as Hfold.
  { induction ts as [|t ts IH]; intros acc Hts Hacc; [done|].
    apply Forall_cons in Hts as [Ht Hts]. cbn [foldl].
    destruct (IH (enter acc t) Hts) as [IH1 IH2].
    - destruct t as [| |aw k|p]; cbn;
        try (apply Forall_app; split; [done|]; by constructor).
      destruct (keepsFrom_body p acc.1) as (_ & ? & ?).
      apply Forall_app. split; [done|]. apply Forall_app. split; [done|].
      by constructor.
    - split; [|done]. rewrite IH1.
      destruct t as [| |aw k|p]; cbn; try done.
      by destruct (keepsFrom_body p acc.1) as (? & _ & _). }
  destruct (Hfold (started st) (world st, []) Hs) as [H1 H2]; [done|].
  split; [cbn in *; congruence|]. by split.
Qed.

Lemma keepsFrom_resume o t w : keeps t → keepsFrom w (resume o t w).
Proof.
  intros Ht. destruct t as [| |aw k|p]; cbn; try by split.
  apply keepsFrom_settle. by apply (proj1 (keeps_Await aw k)).
Qed.

(** ** The invariant is kept by every event *)

Lemma waiting_snoc l : ∀ n,
  0 < n + length l → waiting n l → waiting n (l ++ [Chained (n + length l - 1)]).
Proof.
  induction l as [|c l IH]; intros n Hn Hw.
  - cbn in *. split; [f_equal; lia|]. split; [lia|done].
  - destruct Hw as (-> & Hpos & Hw). cbn [app waiting]. split; [done|]. split; [done|].
    replace (n + length (Chained (pred n) :: l) - 1) with (S n + length l - 1)
      by (cbn; lia).
    apply IH; [lia|done].
Qed.

Lemma waiting_lookup l : ∀ n i c,
  waiting n l → l !! i = Some c → c = Chained (n + i - 1) ∧ 0 < n + i.
Proof.
  induction l as [|c' l IH]; intros n i c Hw Hl; [done|].
  destruct Hw as (-> & Hpos & Hw). destruct i as [|i].
  - cbn in Hl. injection Hl as <-. split; [f_equal; lia | lia].
  - cbn in Hl. destruct (IH (S n) i c Hw Hl) as [-> ?].
    split; [f_equal; lia | lia].
Qed.

Lemma foldl_place_unawaited ts : ∀ s,
  foldl place s (map (pair Unawaited) ts) =
  mkSystem (now s) (pool s ++ map (pair Unawaited) (filter (λ t, pending t) ts))
    (chain s) (history s).
Proof.
  induction ts as [|t ts IH]; intros s.
  - cbn. rewrite app_nil_r. by destruct s.
  - cbn [map foldl]. rewrite IH.
    destruct t as [| |aw k|p]; cbn; try done; by rewrite <- app_assoc.
Qed.

Lemma filter_negotiation_unawaited (ts : list Async) :
  filter (λ a, isNegotiation a) (map (pair Unawaited) ts) = [].
Proof.
  induction ts as [|t ts IH]; [done|].
  cbn [map]. rewrite filter_cons_False; [done|]. by intros ?.
Qed.

Lemma boot_Inv w : responsePromiseChain (this w) = None → Inv (boot w).
Proof.
  intros Hw. split; [|done]. exists [], [], [], []. unfold Shape, boot. cbn.
  split_and!; try done.
  - by left.
  - constructor.
  - intros a n Ha. by apply elem_of_nil in Ha.
Qed.

Lemma length_filter_delete {A} (P : A → Prop) `{∀ x, Decision (P x)} (l : list A) i :
  length (filter P (delete i l)) ≤ length (filter P l).
Proof.
  destruct (l !! i) as [x|] eqn:Hi.
  - rewrite delete_take_drop. rewrite <- (take_drop_middle l i x Hi) at 3.
    rewrite !filter_app, !length_app.
    destruct (decide (P x)).
    + rewrite filter_cons_True by done. cbn. lia.
    + by rewrite filter_cons_False.
  - rewrite delete_take_drop.
    apply lookup_ge_None in Hi.
    rewrite take_ge by lia. rewrite drop_ge by lia. by rewrite app_nil_r.
Qed.

Lemma length_filter_delete_lt {A} (P : A → Prop) `{∀ x, Decision (P x)} (l : list A) i x :
  l !! i = Some x → P x →
  length (filter P (delete i l)) < length (filter P l).
Proof.
  intros Hi HP.
  rewrite delete_take_drop. rewrite <- (take_drop_middle l i x Hi) at 3.
  rewrite !filter_app, !length_app. rewrite filter_cons_True by done. cbn. lia.
Qed.

(** A segment run for an unawaited activation, or for the negotiation in
    flight, keeps the shape of the chain. *)
Lemma absorb_Shape owner st s old cur dead waits :
  Shape old cur dead waits s →
  keepsFrom (now s) st →
  match owner with
  | Unawaited => True
  | Negotiation n =>
      n = length old ∧ cur = [Negotiating] ∧
      filter (λ a, isNegotiation a) (pool s) = []
  end →
  (∃ old' cur' dead' waits', Shape old' cur' dead' waits' (absorb owner st s)) ∧
  responsePromiseChain (this (now (absorb owner st s))) =
    responsePromiseChain (this (now s)) ∧
  length (chain (absorb owner st s)) = length (chain s).
Proof.
  intros (Hc & Ho & Hcur & Hd & Hw & Hser & Hk & Hn & Hm) (Hf & Hr & Hs) Hown.
  unfold absorb. rewrite foldl_place_unawaited. cbn [now pool chain history].
  set (extra := map (pair Unawaited) (filter (λ t, pending t) (started st))).
  assert (Forall (λ a : Owner * Async, keeps a.2) (pool s ++ extra)) as Hk'.
  { apply Forall_app. split; [done|]. unfold extra.
    apply Forall_map. cbn. apply Forall_forall. intros t Ht.
    apply list_elem_of_filter in Ht as [_ Ht].
    by apply (proj1 (Forall_forall _ _) Hs). }
  assert (filter (λ a, isNegotiation a) (pool s ++ extra) =
          filter (λ a, isNegotiation a) (pool s)) as Hfil.
  { rewrite filter_app. unfold extra.
    rewrite filter_negotiation_unawaited. by rewrite app_nil_r. }
  assert (∀ a n, a ∈ pool s ++ extra → a.1 = Negotiation n → n = length old) as Hm'.
  { intros a n Ha Han. apply elem_of_app in Ha as [Ha|Ha]; [by eapply Hm|].
    unfold extra in Ha. apply list_elem_of_fmap in Ha as (t & -> & _). done. }
  assert (Shape old cur dead waits
            (mkSystem (world st) (pool s ++ extra) (chain s) (history s))) as Hbase.
  { split_and!; try done. cbn [pool]. by rewrite Hfil. }
  destruct owner as [n|].
  - destruct Hown as (-> & -> & Hnone).
    assert (∀ c, settledPromise c →
      Shape (old ++ [c]) [] dead waits
        (mkSystem (world st) (pool s ++ extra) (<[length old := c]> (chain s))
           (history s ++ [Completed (length old)]))) as Hdone.
    { intros c Hsc. split_and!; cbn [now pool chain history]; try done.
      - rewrite Hc. replace (length old) with (length old + 0) at 1 by lia.
        rewrite insert_app_r. cbn. by rewrite <- app_assoc.
      - apply Forall_app. split; [done|]. by constructor.
      - by left.
      - replace (length ((old ++ [c]) ++ [] ++ dead))
          with (length (old ++ [Negotiating] ++ dead)); [done|].
        rewrite !length_app. cbn. lia.
      - rewrite length_app. cbn [length]. rewrite Nat.add_0_r.
        rewrite bool_decide_false by done.
        rewrite bool_decide_true in Hser by done. cbn [length] in Hser.
        replace (length old + 1) with (S (length old)) in * by lia.
        by constructor.
      - rewrite Hfil, Hnone. cbn. lia.
      - intros a n Ha Han. exfalso.
        apply elem_of_app in Ha as [Ha|Ha].
        + eapply (filter_nil_not_elem_of _ _ a Hnone); [|done].
          unfold isNegotiation. by rewrite Han.
        + unfold extra in Ha. apply list_elem_of_fmap in Ha as (t & -> & _). done. }
    destruct (rest st) as [| |aw k|p] eqn:Hrest; cbn [place now chain].
    + split; [|split; [done|by rewrite length_insert]].
      eexists _, _, _, _. apply Hdone. by left.
    + split; [|split; [done|by rewrite length_insert]].
      eexists _, _, _, _. apply Hdone. by right.
    + split; [|done]. exists old, [Negotiating], dead, waits.
      split_and!; try done; cbn [pool].
      * apply Forall_app. split; [done|]. by constructor.
      * rewrite filter_app, Hfil, Hnone. cbn. destruct (decide True); cbn; lia.
      * intros a n Ha Han. apply elem_of_app in Ha as [Ha|Ha]; [by eapply Hm'|].
        apply list_elem_of_singleton in Ha as ->. cbn in Han. congruence.
    + split; [|done]. exists old, [Negotiating], dead, waits.
      split_and!; try done; cbn [pool].
      * apply Forall_app. split; [done|]. by constructor.
      * rewrite filter_app, Hfil, Hnone. cbn. destruct (decide True); cbn; lia.
      * intros a n Ha Han. apply elem_of_app in Ha as [Ha|Ha]; [by eapply Hm'|].
        apply list_elem_of_singleton in Ha as ->. cbn in Han. congruence.
  - destruct (rest st) as [| |aw k|p] eqn:Hrest; cbn [place now chain];
      (split; [|done]); exists old, cur, dead, waits; try done.
    + split_and!; try done; cbn [pool].
      * apply Forall_app. split; [done|]. by constructor.
      * rewrite filter_app, Hfil. cbn. destruct (decide False); [done|].
        by rewrite app_nil_r.
      * intros a n Ha Han. apply elem_of_app in Ha as [Ha|Ha]; [by eapply Hm'|].
        apply list_elem_of_singleton in Ha as ->. done.
    + split_and!; try done; cbn [pool].
      * apply Forall_app. split; [done|]. by constructor.
      * rewrite filter_app, Hfil. cbn. destruct (decide False); [done|].
        by rewrite app_nil_r.
      * intros a n Ha Han. apply elem_of_app in Ha as [Ha|Ha]; [by eapply Hm'|].
        apply list_elem_of_singleton in Ha as ->. done.
Qed.

Lemma promiseCreator_Shape s old c waits :
  chain s = old ++ c :: waits →
  Forall settledPromise old →
  waiting (S (length old)) waits →
  serial (length old) false (history s) →
  Forall (λ a, keeps a.2) (pool s) →
  filter (λ a, isNegotiation a) (pool s) = [] →
  (∃ old' cur' dead' waits', Shape old' cur' dead' waits' (promiseCreator (length old) s)) ∧
  responsePromiseChain (this (now (promiseCreator (length old) s))) =
    responsePromiseChain (this (now s)) ∧
  length (chain (promiseCreator (length old) s)) = length (chain s).
Proof.
  intros Hc Ho Hw Hser Hk Hnone.
  set (s' := mkSystem (now s) (pool s) (<[length old := Negotiating]> (chain s))
               (history s ++ [Started (length old)])).
  destruct (absorb_Shape (Negotiation (length old))
              (settle (handleNegotiation (now s'))) s' old [Negotiating] [] waits)
    as (H1 & H2 & H3).
  - unfold s'. split_and!; cbn [now pool chain history]; try done.
    + rewrite Hc. replace (length old) with (length old + 0) at 1 by lia.
      by rewrite insert_app_r.
    + by right.
    + rewrite !length_app. cbn. by replace (length old + 1) with (S (length old)) by lia.
    + rewrite bool_decide_true by done. cbn [length].
      replace (length old + 1) with (S (length old)) by lia. by constructor.
    + rewrite Hnone. cbn. lia.
    + intros a n Ha Han. exfalso.
      eapply (filter_nil_not_elem_of _ _ a Hnone); [|done].
      unfold isNegotiation. by rewrite Han.
  - apply keepsFrom_settle, keepsFrom_handleNegotiation.
  - done.
  - split_and!; [exact H1 | exact H2 |].
    etrans; [exact H3|]. cbn. apply length_insert.
Qed.

Lemma lookup_snoc_last {A} (l : list A) x : (l ++ [x]) !! (length (l ++ [x]) - 1) = Some x.
Proof.
  rewrite length_app. cbn. replace (length l + 1 - 1) with (length l) by lia.
  by apply list_lookup_middle.
Qed.

Lemma exec_Inv s e : Inv s → Inv (exec s e).
Proof.
  intros [(old & cur & dead & waits & HS) HF].
  pose proof HS as (Hc & Ho & Hcur & Hd & Hw & Hser & Hk & Hn & Hm).
  destruct e as [|n|i o|call calls]; cbn [exec].
  - (* onNegotiationNeeded *)
    unfold onNegotiationNeeded. unfold FieldOk in HF.
    destruct (responsePromiseChain (this (now s))) as [p|] eqn:Hfield.
    + destruct (length (chain s)) as [|m] eqn:Hlen; [done|]. injection HF as ->.
      split.
      * exists old, cur, dead, (waits ++ [Chained m]).
        split_and!; cbn [now pool chain history]; try done.
        -- rewrite Hc. by rewrite <- !app_assoc.
        -- replace m with (length (old ++ cur ++ dead) + length waits - 1).
           ++ apply waiting_snoc; [|done].
              rewrite Hc in Hlen. rewrite !length_app in *. lia.
           ++ rewrite Hc in Hlen. rewrite !length_app in *. lia.
      * unfold FieldOk. cbn [now chain this upd set_responsePromiseChain responsePromiseChain].
        rewrite length_app, Hlen. cbn [length].
        by replace (S m + 1) with (S (S m)) by lia.
    + destruct (length (chain s)) as [|m] eqn:Hlen; [|done].
      apply nil_length_inv in Hlen. rewrite Hlen in *.
      symmetry in Hc.
      apply app_eq_nil in Hc as [-> Hc]. apply app_eq_nil in Hc as [-> Hc].
      apply app_eq_nil in Hc as [-> ->].
      assert (filter (λ a, isNegotiation a) (pool s) = []) as Hnone.
      { destruct (filter _ (pool s)); [done|]. cbn in Hn. lia. }
      destruct (promiseCreator_Shape
                  (mkSystem (now s) (pool s) ([] ++ [Negotiating]) (history s))
                  [] Negotiating [] eq_refl Ho I Hser Hk Hnone) as (HS' & Hf' & Hl').
      cbn [length app] in *. split.
      * destruct HS' as (old' & cur' & dead' & waits' & HS').
        by exists old', cur', dead', waits'.
      * unfold FieldOk.
        cbn [now chain this upd set_responsePromiseChain responsePromiseChain].
        by rewrite Hl'.
  - (* the job of promise n *)
    destruct (chain s !! n) as [[p| | |]|] eqn:Hn'; try (split; [by eexists _, _, _, _|done]).
    assert (Forall (λ c, ∀ q, c ≠ Chained q) (old ++ cur ++ dead)) as Hpre.
    { apply Forall_app. split.
      - eapply Forall_impl; [exact Ho|]. intros c [-> | ->] q; done.
      - apply Forall_app. split.
        + destruct Hcur as [-> | ->]; [done|]. constructor; [done|constructor].
        + eapply Forall_impl; [exact Hd|]. intros c -> q; done. }
    rewrite Hc in Hn'. rewrite !app_assoc in Hn'. rewrite <- (app_assoc old) in Hn'.
    apply lookup_app_Some in Hn' as [Hin | [Hge Hin]].
    { exfalso. apply (proj1 (Forall_lookup _ _) Hpre _ _ Hin p). done. }
    destruct (waiting_lookup _ _ _ _ Hw Hin) as [Hp Hpos].
    injection Hp as Hp.
    set (n0 := length (old ++ cur ++ dead)) in *.
    destruct (decide (n = n0)) as [->|Hne].
    2:{ (* a promise that waits on one that waits *)
      assert (∃ c, waits !! (n - n0 - 1) = Some c) as [c Hc'].
      { apply lookup_lt_is_Some. apply lookup_lt_Some in Hin. lia. }
      destruct (waiting_lookup _ _ _ _ Hw Hc') as [-> _].
      assert (chain s !! p = Some (Chained (n0 + (n - n0 - 1) - 1))) as Hcp.
      { rewrite Hc. rewrite !app_assoc. rewrite <- (app_assoc old).
        rewrite lookup_app_r by (fold n0; lia). fold n0.
        replace (p - n0) with (n - n0 - 1) by lia. done. }
      rewrite Hcp. split; [by eexists _, _, _, _|done]. }
    replace (n0 - n0) with 0 in Hin by lia.
    destruct waits as [|c waits']; [done|]. cbn in Hin. injection Hin as ->.
    destruct Hw as (_ & _ & Hw).
    assert (chain s !! p = (old ++ cur ++ dead) !! (n0 - 1)) as Hcp.
    { rewrite Hc. rewrite !app_assoc. rewrite <- (app_assoc old).
      rewrite lookup_app_l by (fold n0; lia). f_equal. lia. }
    rewrite Hcp.
    destruct ((old ++ cur ++ dead) !! (n0 - 1)) as [[q| | |]|] eqn:Hlast;
      try (split; [by eexists _, _, _, _|done]).
    + (* the promise before is fulfilled: the callback runs *)
      assert (dead = [] ∧ cur = []) as [-> ->].
      { destruct dead as [|d dead' _] using rev_ind.
        - split; [done|]. destruct Hcur as [-> | ->]; [done|]. exfalso.
          rewrite app_nil_r in Hlast. unfold n0 in Hlast. rewrite app_nil_r in Hlast.
          by rewrite lookup_snoc_last in Hlast.
        - exfalso. apply Forall_app in Hd as [_ Hd]. apply Forall_singleton in Hd as ->.
          unfold n0 in Hlast. rewrite !app_assoc in Hlast.
          by rewrite lookup_snoc_last in Hlast. }
      subst n0. cbn [app length] in *. rewrite ?app_nil_r in *.
      rewrite Nat.add_0_r in Hser. rewrite bool_decide_false in Hser by done.
      assert (filter (λ a, isNegotiation a) (pool s) = []) as Hnone.
      { destruct (filter _ (pool s)); [done|]. cbn in Hn. lia. }
      destruct (promiseCreator_Shape s old (Chained p) waits'
                  Hc Ho Hw Hser Hk Hnone) as (HS' & Hf' & Hl').
      split; [done|]. unfold FieldOk in *. by rewrite Hf', Hl'.
    + (* the promise before is rejected: so is this one *)
      split.
      * exists old, cur, (dead ++ [Broken]), waits'.
        split_and!; cbn [now pool chain history]; try done.
        -- rewrite Hc. rewrite !app_assoc. rewrite <- (app_assoc old).
           fold n0. replace n0 with (n0 + 0) at 1 by lia. unfold n0 at 1.
           rewrite insert_app_r. cbn. rewrite <- !app_assoc. done.
        -- apply Forall_app. split; [done|]. by constructor.
        -- replace (length (old ++ cur ++ dead ++ [Broken])) with (S n0); [done|].
           unfold n0. rewrite !length_app. cbn. lia.
      * unfold FieldOk in *. cbn [now chain]. by rewrite length_insert.
  - (* an activation is resumed *)
    destruct (pool s !! i) as [[owner t]|] eqn:Hi; [|split; [by eexists _, _, _, _|done]].
    set (s' := mkSystem (now s) (delete i (pool s)) (chain s) (history s)).
    assert (Shape old cur dead waits s') as HS'.
    { split_and!; cbn [now pool chain history]; try done.
      - by apply Forall_delete.
      - etrans; [apply length_filter_delete|done].
      - intros a n Ha. apply list_elem_of_delete_inv in Ha. by apply Hm. }
    assert (keeps t) as Ht.
    { by apply (Forall_lookup_1 _ _ _ _ Hk Hi). }
    destruct (absorb_Shape owner (resume o t (now s)) s' old cur dead waits HS')
      as (HS'' & Hf'' & Hl'').
    + by apply keepsFrom_resume.
    + destruct owner as [n|]; [|done].
      assert (length (filter (λ a, isNegotiation a) (delete i (pool s))) <
              length (filter (λ a, isNegotiation a) (pool s))) as Hlt.
      { by apply (length_filter_delete_lt _ _ i (Negotiation n, t)). }
      split_and!.
      * apply (Hm (Negotiation n, t)); [|done]. by eapply list_elem_of_lookup_2.
      * destruct Hcur as [-> | ->]; [cbn [length] in Hn; lia|done].
      * apply nil_length_inv. unfold s'. cbn [pool].
        destruct Hcur as [-> | ->]; cbn [length] in Hn; lia.
    + split; [done|]. unfold FieldOk in *. by rewrite Hf'', Hl''.
  - (* other code *)
    split; [by exists old, cur, dead, waits|]. done.
Qed.

(** ** Serialised negotiations *)

Lemma omap_snoc {A B} (f : A → option B) (l : list A) x :
  omap f (l ++ [x]) = omap f l ++ match f x with Some y => [y] | None => [] end.
Proof.
  induction l as [|a l IH]; cbn.
  - by destruct (f x).
  - rewrite IH. by destruct (f a).
Qed.

Lemma serial_started k b h : serial k b h → omap startedMark h = seq 0 k.
Proof.
  induction 1 as [|k h _ IH|k h _ IH].
  - done.
  - rewrite omap_snoc, IH. cbn [startedMark]. by rewrite seq_S.
  - rewrite omap_snoc, IH. cbn [startedMark]. by rewrite app_nil_r.
Qed.

Lemma serial_idle_completed k h : serial (S k) false h → Completed k ∈ h.
Proof.
  inversion 1 as [|? ? ? Heq|? h' ? Heq]; subst.
  apply elem_of_app. right. by apply list_elem_of_singleton.
Qed.

Lemma serial_completed_before k b h :
  serial k b h →
  ∀ h1 h2 n, h = h1 ++ Started (S n) :: h2 → Completed n ∈ h1.
Proof.
  induction 1 as [|k h Hs IH|k h Hs IH]; intros h1 h2 n Heq.
  - by destruct h1.
  - destruct h2 as [|m h2 _] using rev_ind.
    + apply app_inj_tail in Heq as [-> Hk]. injection Hk as ->.
      by apply serial_idle_completed.
    + rewrite app_comm_cons, app_assoc in Heq.
      apply app_inj_tail in Heq as [-> _]. by eapply IH.
  - destruct h2 as [|m h2 _] using rev_ind.
    + by apply app_inj_tail in Heq as [_ ?].
    + rewrite app_comm_cons, app_assoc in Heq.
      apply app_inj_tail in Heq as [-> _]. by eapply IH.
Qed.

Lemma promiseCreator_starts n s :
  effects (now (promiseCreator n s)) = effects (now s) ++ [PcSetLocalDescription None] ∧
  history (promiseCreator n s) = history s ++ [Started n].
Proof. done. Qed.

Lemma run_Inv events : ∀ s, Inv s → Inv (foldl exec s events).
Proof.
  induction events as [|e events IH]; intros s Hs; [done|].
  cbn. by apply IH, exec_Inv.
Qed.

(** C8. Whatever happens to a call (the peer connection asking for a
    negotiation, promise jobs, resumptions of suspended activations with
    any outcome, other code changing any other field), the negotiations
    run one at a time and in the order of the callbacks: their history is
    [serial], so the numbers of the negotiations started are 0, 1, 2, ...
    in that order, negotiation [n+1] starts only after negotiation [n] has
    completed, and at most one [handleNegotiation] is suspended at any
    time. Starting a negotiation is what calls [setLocalDescription]. *)
Theorem negotiations_run_one_at_a_time :
  ∀ pc media events,
    let s := foldl exec (boot (mkWorld (newPeerCall pc media) [])) events in
    ∃ k b,
      serial k b (history s) ∧
      omap startedMark (history s) = seq 0 k ∧
      (∀ h1 h2 n, history s = h1 ++ Started (S n) :: h2 → Completed n ∈ h1) ∧
      length (filter (λ a, isNegotiation a) (pool s)) ≤ (if b then 1 else 0) ∧
      ∀ n s',
        effects (now (promiseCreator n s')) =
          effects (now s') ++ [PcSetLocalDescription None] ∧
        history (promiseCreator n s') = history s' ++ [Started n].
Proof.
  intros pc media events s.
  destruct (run_Inv events (boot (mkWorld (newPeerCall pc media) [])))
    as [(old & cur & dead & waits & HS) _].
  { by apply boot_Inv. }
  destruct HS as (Hc & Ho & Hcur & Hd & Hw & Hser & Hk & Hn & Hm).
  exists (length old + length cur), (bool_decide (cur = [Negotiating])).
  split_and!.
  - done.
  - by eapply serial_started.
  - by eapply serial_completed_before.
  - fold s in Hn. destruct Hcur as [-> | ->]; cbn [length] in Hn.
    + rewrite bool_decide_false by done. exact Hn.
    + rewrite bool_decide_true by done. exact Hn.
  - apply promiseCreator_starts.
Qed.

(** * Further properties *)

(** ** answer *)

(** X2. [answer] on a ringing call whose local media promise rejects: the
    state goes to WaitLocalMedia and then to Ended, with one update emitted
    for each; [localMedia] and [hangupParty] are as before, nothing is sent
    and no track is added, and the activation is complete. *)
Theorem answer_media_rejected_ends_call :
  ∀ localMediaPromise w (o : Oracle) script,
    state (this w) = Ringing →
    o (AwLocalMedia localMediaPromise) = Rejected →
    let st := runCall (o :: script) (answer localMediaPromise w) in
    rest st = Done ∧
    started st = [] ∧
    state (this (world st)) = Ended ∧
    localMedia (this (world st)) = localMedia (this w) ∧
    hangupParty (this (world st)) = hangupParty (this w) ∧
    effects (world st) = effects w ++ [EmitUpdate; EmitUpdate].
Proof.
  intros p w o script Hs Ho. unfold answer.
  rewrite decide_False by (rewrite Hs; by intros ?).
  cbv zeta. rewrite runCall_await, Ho. rewrite runCall_ret.
  cbn [rest started world]. flatten.
  split_and!; try reflexivity. by reassoc.
Qed.

Lemma answer_media_rejected_ends_call_witness :
  state (this (world (runCall [rejecting] (answer 0 (callIn Ringing Inbound))))) = Ended.
Proof.
  exact (proj1 (proj2 (proj2
    (answer_media_rejected_ends_call 0 (callIn Ringing Inbound) rejecting []
       eq_refl eq_refl)))).
Defined.

(** X3. [answer] when [createAnswer] or [setLocalDescription] rejects:
    [terminate] is called and does nothing, so the activation completes
    with the call left in CreateAnswer; the local tracks have been added to
    the connection, and no Answer is sent. *)
Theorem answer_failure_sends_no_answer :
  ∀ localMediaPromise w media (o1 o2 o3 : Oracle) script,
    state (this w) = Ringing →
    o1 (AwLocalMedia localMediaPromise) = Resolved media →
    (o2 AwCreateAnswer = Rejected →
     let st := runCall (o1 :: o2 :: script) (answer localMediaPromise w) in
     rest st = Done ∧
     state (this (world st)) = CreateAnswer ∧
     effects (world st) =
       effects w ++ [EmitUpdate; EmitUpdate] ++
       map PcAddTrack (tracks media) ++ [PcCreateAnswer]) ∧
    (∀ myAnswer,
       o2 AwCreateAnswer = Resolved myAnswer →
       o3 AwPeerConnection = Rejected →
       let st := runCall (o1 :: o2 :: o3 :: script) (answer localMediaPromise w) in
       rest st = Done ∧
       state (this (world st)) = CreateAnswer ∧
       effects (world st) =
         effects w ++ [EmitUpdate; EmitUpdate] ++
         map PcAddTrack (tracks media) ++
         [PcCreateAnswer; PcSetLocalDescription (Some myAnswer)]).
Proof.
  intros p w media o1 o2 o3 script Hs Ho1. split.
  - intros Ho2. unfold answer.
    rewrite decide_False by (rewrite Hs; by intros ?).
    cbv zeta. rewrite runCall_await, Ho1. rewrite runCall_await, Ho2.
    unfold terminate, detach, ret. cbn [world started rest app].
    rewrite runCall_step by (by repeat constructor). rewrite run_Done.
    cbn [fork rest started world]. flatten.
    split_and!; try reflexivity. by reassoc.
  - intros a Ho2 Ho3. unfold answer.
    rewrite decide_False by (rewrite Hs; by intros ?).
    cbv zeta. rewrite runCall_await, Ho1. rewrite runCall_await, Ho2.
    rewrite runCall_await, Ho3.
    unfold terminate, detach, ret. cbn [world started rest app].
    rewrite runCall_step by (by repeat constructor). rewrite run_Done.
    cbn [fork rest started world]. flatten.
    split_and!; try reflexivity. by reassoc.
Qed.

Lemma answer_failure_sends_no_answer_witness :
  state (this (world (runCall [allResolve; rejecting]
                        (answer 0 (callIn Ringing Inbound))))) = CreateAnswer.
Proof.
  exact (proj1 (proj2
    (proj1 (answer_failure_sends_no_answer 0 (callIn Ringing Inbound) sampleMedia
              allResolve rejecting rejecting [] eq_refl eq_refl)
       eq_refl))).
Defined.

Lemma sendAnswer_throws w : sendAnswer w = throw w.
Proof. unfold sendAnswer. by destruct (localDescription _). Qed.

(** X4. [answer] on a ringing call when every await resolves: the local
    media is stored and its tracks added, the answer created and set as
    local description, the state becomes Connecting, and after a delay of
    200 ms [sendAnswer] is called and not awaited. [sendAnswer] throws, so
    no Answer message goes out: [answer] completes with the call in
    Connecting, the candidate queue as it was and nothing sent. *)
Theorem answer_never_sends_the_answer :
  ∀ localMediaPromise w media myAnswer,
    state (this w) = Ringing →
    let st := runCall (replicate 5 (resolving media myAnswer))
                (answer localMediaPromise w) in
    rest st = Done ∧
    started st = [Failed] ∧
    state (this (world st)) = Connecting ∧
    localMedia (this (world st)) = media ∧
    candidateSendQueue (this (world st)) = candidateSendQueue (this w) ∧
    ∃ timeout,
      effects (world st) =
      effects w ++ [EmitUpdate; EmitUpdate] ++
      map PcAddTrack (tracks media) ++
      [PcCreateAnswer; PcSetLocalDescription (Some myAnswer); EmitUpdate;
       CreateTimeout timeout 200].
Proof.
  intros p w media a Hs. unfold answer.
  rewrite decide_False by (rewrite Hs; by intros ?).
  cbn [replicate]. cbv zeta.
  rewrite runCall_await. cbv beta iota zeta delta [resolving].
  rewrite runCall_await. cbv beta iota zeta delta [resolving].
  rewrite runCall_await. cbv beta iota zeta delta [resolving].
  rewrite runCall_delay by done.
  rewrite sendAnswer_throws. unfold detach, throw. cbn [world started rest app].
  rewrite runCall_nil by (by repeat constructor).
  cbn [rest world started]. flatten.
  split; [reflexivity|]. split; [reflexivity|]. split; [reflexivity|].
  split; [reflexivity|]. split; [reflexivity|].
  match goal with |- context [CreateTimeout ?n 200] => exists n end.
  reassoc. reflexivity.
Qed.

Lemma answer_never_sends_the_answer_witness :
  let st := runCall (replicate 5 allResolve) (answer 0 (callIn Ringing Inbound)) in
  started st = [Failed] ∧ state (this (world st)) = Connecting.
Proof.
  destruct (answer_never_sends_the_answer 0 (callIn Ringing Inbound) sampleMedia
              (mkDesc "v=0 a" "answer") eq_refl)
    as (_ & Hstarted & Hstate & _).
  cbv zeta. split; [exact Hstarted | exact Hstate].
Defined.

(** ** sendAnswer *)

(** X5. [sendAnswer] rejects in every world and leaves it as it was: with
    no local description, reading its [sdp] throws; with one,
    [this.logger.info] throws (l.340) before the candidate queue is
    emptied and before the Answer is sent. However often it is resumed,
    the queue is intact and nothing has been sent. *)
Theorem sendAnswer_rejects_before_sending :
  ∀ w,
    sendAnswer w = throw w ∧
    ∀ script, runCall script (sendAnswer w) = mkStep w [] Failed.
Proof.
  intros w. split; [apply sendAnswer_throws|].
  intros script. by rewrite sendAnswer_throws, runCall_throw.
Qed.

(** ** handleInvite *)

(** X6. An Invite on a Fledgling call with no opponent, when
    [setRemoteDescription] resolves, the buffer holds nothing for the
    sender and the connection has remote tracks: the opponent and the
    direction Inbound are recorded, the metadata calls are made, the offer
    is applied, the buffer is dropped as [addBufferedIceCandidates] does,
    and the call rings; the handler is then suspended on a timeout of
    [lifetime] if the Invite has one and of CALL_TIMEOUT_MS otherwise,
    which is tracked in [disposables]. *)
Theorem invite_rings :
  ∀ content partyId w (o tick : Oracle),
    state (this w) = Fledgling →
    opponentPartyId (this w) = None →
    remoteTracks (peerConnection (this w)) ≠ [] →
    o AwPeerConnection = Resolved () →
    bufferedForOpponent (upd (set_opponentPartyId (Some partyId)) w) = None →
    let lifetime := default CALL_TIMEOUT_MS (inv_lifetime content) in
    let st := runCall [o; tick] (handleInvite content partyId w) in
    started st = [] ∧
    state (this (world st)) = Ringing ∧
    opponentPartyId (this (world st)) = Some partyId ∧
    direction (this (world st)) = Some Inbound ∧
    hangupParty (this (world st)) = hangupParty (this w) ∧
    remoteCandidateBuffer (this (world st)) =
      remoteCandidateBuffer (this (afterDrain (upd (set_opponentPartyId (Some partyId)) w))) ∧
    ∃ timeout,
      effects (world st) =
        effects w ++ metadataCalls (inv_sdp_stream_metadata content) w ++
        [PcSetRemoteDescription (inv_offer content);
         EmitUpdate; CreateTimeout timeout lifetime] ∧
      disposables (this (world st)) = disposables (this w) ++ [timeout] ∧
      ∃ k, rest st = Await (AwElapsed timeout lifetime) k.
Proof.
  intros content partyId w o tick Hs Hopp Htracks Ho Hnone. cbv zeta.
  destruct (runCall_handleInvite_offer_applied content partyId w o tick [] Hs Hopp Ho)
    as (wA & (Hpc & Hst & Hdir & HoppA & Hhp & Hdisp & Hbuf & Hbuffered & Hdrained & Heff)
        & ->).
  rewrite Hbuffered, Hnone.
  rewrite decide_False by (rewrite Hpc; destruct (remoteTracks _); [done|by cbn]).
  cbv zeta. rewrite runCall_pending_delay.
  cbn [started world rest]. unfold pendingDelay. flatten.
  destruct (afterDrain_frame wA)
    as (_ & _ & HdirD & _ & _ & HoppD & HhpD & _ & HdispD & _ & _ & HeffD).
  rewrite HdirD, Hdir, HoppD, HoppA, HhpD, Hhp, HdispD, Hdisp, HeffD, Hdrained.
  split_and!; try reflexivity.
  eexists. split_and!; [|reflexivity|].
  - rewrite Heff. by reassoc.
  - unfold awaitOk, awaitCall, delay. cbn [await rest andThen]. by eexists.
Qed.

Lemma invite_rings_witness :
  state (this (world (runCall [allResolve; allResolve]
                        (handleInvite sampleInvite (Some "X") freshCall)))) = Ringing.
Proof.
  exact (proj1 (proj2
    (invite_rings sampleInvite (Some "X") freshCall allResolve allResolve
       eq_refl eq_refl ltac:(discriminate) eq_refl eq_refl))).
Defined.

(** X7. When the timeout of a ringing Invite elapses, in whatever world:
    if the call is still Ringing it is ended with hangup party Remote, one
    update is emitted, every local track is stopped and the connection is
    closed unless its signalling state is closed already; in any other
    state nothing happens. When the timeout is aborted instead, the handler
    rejects and the world is left as it was. The Invite is one that rings:
    the buffer holds nothing for its sender. *)
Theorem ringing_invite_expires_unless_state_moved :
  ∀ content partyId w (o tick : Oracle),
    state (this w) = Fledgling →
    opponentPartyId (this w) = None →
    remoteTracks (peerConnection (this w)) ≠ [] →
    o AwPeerConnection = Resolved () →
    bufferedForOpponent (upd (set_opponentPartyId (Some partyId)) w) = None →
    let st := runCall [o; tick] (handleInvite content partyId w) in
    ∀ (elapsed tick' : Oracle) (w' : World),
      let st' := run [elapsed; tick'] (rest st) w' in
      ((∀ timeout ms, elapsed (AwElapsed timeout ms) = Resolved ()) →
       started st' = [] ∧ rest st' = Done ∧
       if decide (state (this w') = Ringing)
       then
         state (this (world st')) = Ended ∧
         hangupParty (this (world st')) = Some Remote ∧
         effects (world st') =
           effects w' ++ [EmitUpdate] ++
           map TrackStop (tracks (localMedia (this w'))) ++
           (if decide (signalingState (peerConnection (this w')) ≠ SigClosed)
            then [PcClose] else [])
       else
         state (this (world st')) = state (this w') ∧
         hangupParty (this (world st')) = hangupParty (this w') ∧
         effects (world st') = effects w') ∧
      ((∀ timeout ms, elapsed (AwElapsed timeout ms) = Rejected) →
       st' = mkStep w' [] Failed).
Proof.
  intros content partyId w o tick Hs Hopp Htracks Ho Hnone. cbv zeta.
  destruct (runCall_handleInvite_offer_applied content partyId w o tick [] Hs Hopp Ho)
    as (wA & (Hpc & _ & _ & _ & _ & _ & _ & Hbuffered & _) & ->).
  rewrite Hbuffered, Hnone.
  rewrite decide_False by (rewrite Hpc; destruct (remoteTracks _); [done|by cbn]).
  cbv zeta. rewrite runCall_pending_delay. cbn [rest].
  intros elapsed tick' w'. split.
  - intros Helapsed. rewrite run_delay_resumed by apply Helapsed.
    rewrite elapsedDelay_state.
    destruct (decide (state (this w') = Ringing)) as [Hr|Hr].
    + cbv zeta. unfold stopAllMedia. flatten.
      destruct (decide (signalingState (peerConnection (this w')) ≠ SigClosed));
        rewrite runCall_ret; cbn [started rest world]; fields;
        split_and!; try reflexivity; rewrite ?app_nil_r; by reassoc.
    + rewrite runCall_ret. by cbn.
  - intros Haborted. by rewrite run_delay_aborted by apply Haborted.
Qed.

Lemma ringing_invite_expires_unless_state_moved_witness :
  let st := runCall [allResolve; allResolve]
              (handleInvite sampleInvite (Some "X") freshCall) in
  rest (run [allResolve; allResolve] (rest st) (world st)) = Done.
Proof.
  exact (proj1 (proj2
    (proj1 (ringing_invite_expires_unless_state_moved sampleInvite (Some "X")
              freshCall allResolve allResolve
              eq_refl eq_refl ltac:(discriminate) eq_refl eq_refl
              allResolve allResolve
              (world (runCall [allResolve; allResolve]
                        (handleInvite sampleInvite (Some "X") freshCall))))
       (λ _ _, eq_refl)))).
Defined.

(** X8. An Invite whose offer is applied while the connection has no
    remote track, the buffer holding nothing for the sender: [terminate]
    is called and does nothing. The call stays Fledgling with the opponent
    recorded and no update is emitted. From then on an Invite is returned
    from with the call unchanged, and an Answer makes [handleAnswer] throw
    (l.296) with the call unchanged: neither is accepted. *)
Theorem invite_without_remote_tracks_never_rings :
  ∀ content partyId w (o tick : Oracle),
    state (this w) = Fledgling →
    opponentPartyId (this w) = None →
    remoteTracks (peerConnection (this w)) = [] →
    o AwPeerConnection = Resolved () →
    bufferedForOpponent (upd (set_opponentPartyId (Some partyId)) w) = None →
    let st := runCall [o; tick] (handleInvite content partyId w) in
    rest st = Done ∧
    state (this (world st)) = Fledgling ∧
    opponentPartyId (this (world st)) = Some partyId ∧
    hangupParty (this (world st)) = hangupParty (this w) ∧
    effects (world st) =
      effects w ++ metadataCalls (inv_sdp_stream_metadata content) w ++
      [PcSetRemoteDescription (inv_offer content)] ∧
    (∀ content' partyId',
       handleInvite content' partyId' (world st) = ret (world st)) ∧
    (∀ content' partyId',
       handleAnswer content' partyId' (world st) = throw (world st)).
Proof.
  intros content partyId w o tick Hs Hopp Htracks Ho Hnone. cbv zeta.
  destruct (runCall_handleInvite_offer_applied content partyId w o tick [] Hs Hopp Ho)
    as (wA & (Hpc & Hst & Hdir & HoppA & Hhp & Hdisp & Hbuf & Hbuffered & Hdrained & Heff)
        & ->).
  rewrite Hbuffered, Hnone.
  rewrite decide_True by (by rewrite Hpc, Htracks).
  unfold terminate, detach, ret. cbn [world started rest app].
  rewrite runCall_nil by (by repeat constructor). cbn [world rest].
  destruct (afterDrain_frame wA)
    as (_ & HstD & _ & _ & _ & HoppD & HhpD & _ & _ & _ & _ & HeffD).
  rewrite HstD, HoppD, HhpD, HeffD.
  split_and!; try done.
  - intros content' partyId'. apply handleInvite_ignored. right.
    by rewrite HoppD, HoppA.
  - intros content' partyId'.
    rewrite handleAnswer_not_taken by (by rewrite HoppD, HoppA).
    by rewrite decide_False by (by rewrite HstD, Hst).
Qed.

Lemma invite_without_remote_tracks_never_rings_witness :
  let w := mkWorld (newPeerCall (mkPeerConnection [] IceComplete SigStable None)
                      sampleMedia) [] in
  state (this (world (runCall [allResolve; allResolve]
                        (handleInvite sampleInvite (Some "X") w)))) = Fledgling.
Proof.
  exact (proj1 (proj2
    (invite_without_remote_tracks_never_rings sampleInvite (Some "X")
       (mkWorld (newPeerCall (mkPeerConnection [] IceComplete SigStable None)
                   sampleMedia) [])
       allResolve allResolve eq_refl eq_refl eq_refl eq_refl eq_refl))).
Defined.

(** X9. An Invite whose [setRemoteDescription] rejects: [terminate] is
    called and does nothing. The call stays Fledgling with the opponent
    recorded and the candidate buffer untouched. From then on an Invite is
    returned from with the call unchanged, and an Answer makes
    [handleAnswer] throw (l.296) with the call unchanged: neither is
    accepted. *)
Theorem invite_offer_rejected_leaves_call_deaf :
  ∀ content partyId w (o : Oracle),
    state (this w) = Fledgling →
    opponentPartyId (this w) = None →
    o AwPeerConnection = Rejected →
    let st := runCall [o] (handleInvite content partyId w) in
    rest st = Done ∧
    state (this (world st)) = Fledgling ∧
    opponentPartyId (this (world st)) = Some partyId ∧
    hangupParty (this (world st)) = hangupParty (this w) ∧
    remoteCandidateBuffer (this (world st)) = remoteCandidateBuffer (this w) ∧
    effects (world st) =
      effects w ++ metadataCalls (inv_sdp_stream_metadata content) w ++
      [PcSetRemoteDescription (inv_offer content)] ∧
    (∀ content' partyId',
       handleInvite content' partyId' (world st) = ret (world st)) ∧
    (∀ content' partyId',
       handleAnswer content' partyId' (world st) = throw (world st)).
Proof.
  intros content partyId w o Hs Hopp Ho. cbv zeta.
  destruct (handleInvite_offered content partyId w Hs Hopp)
    as (wA & k & -> & Hk & _ & HthisA & HeffA).
  rewrite runCall_await, Ho, Hk. clear k Hk.
  unfold terminate, detach, ret. cbn [world started rest app].
  rewrite runCall_nil by (by repeat constructor). cbn [world rest].
  assert (state (this wA) = Fledgling ∧ opponentPartyId (this wA) = Some partyId ∧
          hangupParty (this wA) = hangupParty (this w) ∧
          remoteCandidateBuffer (this wA) = remoteCandidateBuffer (this w))
    as (Hst & HoppA & Hhp & Hbuf).
  { rewrite HthisA. by destruct (inv_sdp_stream_metadata content). }
  split_and!; try done.
  - intros content' partyId'. apply handleInvite_ignored. right. by rewrite HoppA.
  - intros content' partyId'.
    rewrite handleAnswer_not_taken by (by rewrite HoppA).
    by rewrite decide_False by (by rewrite Hst).
Qed.

Lemma invite_offer_rejected_leaves_call_deaf_witness :
  opponentPartyId
    (this (world (runCall [rejecting] (handleInvite sampleInvite (Some "X") freshCall)))) =
  Some (Some "X").
Proof.
  exact (proj1 (proj2 (proj2
    (invite_offer_rejected_leaves_call_deaf sampleInvite (Some "X") freshCall rejecting
       eq_refl eq_refl eq_refl)))).
Defined.

(** ** handleNegotiation *)

(** X10. [handleNegotiation] when the local description is set and no
    candidate gathering is under way, by the state of the call: in Ended it
    returns; in any other state it throws at l.207 and rejects. In both
    cases the only call made is [setLocalDescription]: the candidate queue
    and the state are as they were and no Invite is sent, however often
    the activation is resumed. *)
Theorem negotiation_returns_or_rejects_before_the_invite :
  ∀ w (o : Oracle) script,
    o AwPeerConnection = Resolved () →
    iceGatheringState (peerConnection (this w)) ≠ IceGathering →
    let st := runCall (o :: script) (handleNegotiation w) in
    rest st = (if decide (state (this w) = Ended) then Done else Failed) ∧
    started st = [] ∧
    this (world st) = this w ∧
    effects (world st) = effects w ++ [PcSetLocalDescription None].
Proof.
  intros w o script Ho Hice. cbv zeta.
  by rewrite runCall_handleNegotiation.
Qed.

Lemma negotiation_returns_or_rejects_before_the_invite_witness :
  rest (runCall [allResolve; allResolve] (handleNegotiation (callIn CreateOffer Outbound))) =
  Failed.
Proof.
  exact (proj1
    (negotiation_returns_or_rejects_before_the_invite (callIn CreateOffer Outbound)
       allResolve [allResolve] eq_refl ltac:(discriminate))).
Defined.

(** X11. [handleNegotiation] while the connection gathers candidates waits
    200 ms after setting the local description. When the wait is over, in
    whatever world, it returns if the call has Ended and throws at l.207
    otherwise: the timeout is untracked, and nothing else has changed, so
    the candidates queued during the wait are still queued and no Invite
    is sent. When the wait is aborted it rejects as well. *)
Theorem negotiation_waits_while_gathering :
  ∀ w (o : Oracle),
    o AwPeerConnection = Resolved () →
    iceGatheringState (peerConnection (this w)) = IceGathering →
    let st := runCall [o] (handleNegotiation w) in
    let timeout := S (length (effects w)) in
    started st = [] ∧
    this (world st) = set_disposables (disposables (this w) ++ [timeout]) (this w) ∧
    effects (world st) =
      effects w ++ [PcSetLocalDescription None; CreateTimeout timeout 200] ∧
    (∃ k, rest st = Await (AwElapsed timeout 200) k) ∧
    ∀ (elapsed tick : Oracle) script (w' : World),
      (elapsed (AwElapsed timeout 200) = Resolved () →
       run (elapsed :: tick :: script) (rest st) w' =
       mkStep (elapsedDelay timeout w') []
         (if decide (state (this w') = Ended) then Done else Failed)) ∧
      (elapsed (AwElapsed timeout 200) = Rejected →
       run (elapsed :: tick :: script) (rest st) w' = mkStep w' [] Failed).
Proof.
  intros w o Ho Hice. cbv zeta.
  unfold handleNegotiation. cbv zeta. rewrite runCall_await, Ho.
  rewrite decide_True by exact Hice.
  rewrite runCall_pending_delay. cbn [started world rest]. unfold pendingDelay.
  fields. rewrite length_app, Nat.add_1_r.
  split_and!; try reflexivity.
  - by reassoc.
  - unfold awaitOk, awaitCall, delay. cbn [await rest andThen emit effects].
    rewrite length_app, Nat.add_1_r. by eexists.
  - intros elapsed tick script w'. split.
    + intros Helapsed.
      rewrite run_delay_resumed
        by (cbn [emit effects]; by rewrite length_app, Nat.add_1_r).
      rewrite handleNegotiation_offer_eq, elapsedDelay_state.
      cbn [emit effects]. rewrite length_app, Nat.add_1_r.
      destruct (decide _); [apply runCall_ret | apply runCall_throw].
    + intros Haborted.
      by rewrite run_delay_aborted
        by (cbn [emit effects]; by rewrite length_app, Nat.add_1_r).
Qed.

Lemma negotiation_waits_while_gathering_witness :
  let w := mkWorld (set_state CreateOffer
                      (newPeerCall (mkPeerConnection [remoteMic] IceGathering SigStable None)
                         sampleMedia)) [] in
  effects (world (runCall [allResolve] (handleNegotiation w))) =
  [PcSetLocalDescription None; CreateTimeout 1 200].
Proof.
  exact (proj1 (proj2 (proj2
    (negotiation_waits_while_gathering
       (mkWorld (set_state CreateOffer
                   (newPeerCall (mkPeerConnection [remoteMic] IceGathering SigStable None)
                      sampleMedia)) [])
       allResolve eq_refl eq_refl)))).
Defined.

(** X12. [handleNegotiation] when [setLocalDescription] rejects calls
    [terminate], which does nothing, and completes without touching the
    call. *)
Theorem negotiation_failures :
  ∀ w (o : Oracle) script,
    o AwPeerConnection = Rejected →
    runCall (o :: script) (handleNegotiation w) =
    mkStep (emit (PcSetLocalDescription None) w) [Done] Done.
Proof.
  intros w o script Ho.
  unfold handleNegotiation. cbv zeta. rewrite runCall_await, Ho.
  unfold terminate, detach, ret. cbn [world started rest app].
  rewrite runCall_step by (by repeat constructor). by rewrite run_Done.
Qed.

Lemma negotiation_failures_witness :
  runCall [rejecting] (handleNegotiation (callIn CreateOffer Outbound)) =
  mkStep (emit (PcSetLocalDescription None) (callIn CreateOffer Outbound)) [Done] Done.
Proof.
  exact (negotiation_failures (callIn CreateOffer Outbound) rejecting [] eq_refl).
Defined.

(** ** The candidate queue: flushing *)

Lemma sendCandidateQueue_sends w :
  ¬ (candidateSendQueue (this w) = [] ∨ state (this w) = Ended) →
  sendCandidateQueue w =
  await AwSend
    (emit (SendSignallingMessage
             (CandidatesMessage (mkCandidatesContent (candidateSendQueue (this w)))))
       (upd (set_candidateSendQueue []) w))
    (λ o w,
       match o with
       | Resolved _ => mkStep w [Enter PSendCandidateQueue] Done
       | Rejected => detach (terminate Local SignallingFailed false w) Done
       end).
Proof.
  intros Hgo. unfold sendCandidateQueue.
  by rewrite decide_False
    by (intros [Hl|?]; [apply nil_length_inv in Hl; apply Hgo; by left|apply Hgo; by right]).
Qed.

Lemma sendCandidateQueue_idle w :
  candidateSendQueue (this w) = [] ∨ state (this w) = Ended →
  sendCandidateQueue w = ret w.
Proof.
  intros Hstop. unfold sendCandidateQueue.
  by rewrite decide_True by (destruct Hstop as [->|?]; [by left|by right]).
Qed.

(** X13. [sendCandidateQueue] on a non-empty queue, the call not Ended,
    sends the whole queue in one Candidates message and empties it. When
    the send resolves it runs again on the queue as it is by then: the
    candidates that arrived during the send go out in a second message, and
    nothing is sent if there are none or the call has Ended. *)
Theorem sendCandidateQueue_resends_what_arrived_meanwhile :
  ∀ w,
    candidateSendQueue (this w) ≠ [] →
    state (this w) ≠ Ended →
    let st := sendCandidateQueue w in
    started st = [] ∧
    this (world st) = set_candidateSendQueue [] (this w) ∧
    effects (world st) =
      effects w ++
      [SendSignallingMessage
         (CandidatesMessage (mkCandidatesContent (candidateSendQueue (this w))))] ∧
    ∀ (o : Oracle) (w' : World),
      o AwSend = Resolved () →
      let st' := resume o (rest st) w' in
      rest st' = Done ∧
      if decide (candidateSendQueue (this w') = [] ∨ state (this w') = Ended)
      then st' = mkStep w' [Done] Done
      else
        this (world st') = set_candidateSendQueue [] (this w') ∧
        effects (world st') =
          effects w' ++
          [SendSignallingMessage
             (CandidatesMessage (mkCandidatesContent (candidateSendQueue (this w'))))] ∧
        ∃ k, started st' = [Await AwSend k].
Proof.
  intros w Hq Hs. cbv zeta.
  rewrite (sendCandidateQueue_sends w) by (by intros [?|?]).
  unfold await. cbn [started world rest]. fields.
  split_and!; try reflexivity.
  intros o w' Ho. cbn [resume]. rewrite Ho.
  unfold settle. cbn [started world rest foldl enter body fst snd app].
  split; [reflexivity|].
  destruct (decide (candidateSendQueue (this w') = [] ∨ state (this w') = Ended))
    as [Hstop|Hgo].
  - by rewrite sendCandidateQueue_idle.
  - rewrite sendCandidateQueue_sends by done.
    unfold await. cbn [started world rest app]. fields.
    split_and!; try reflexivity. by eexists.
Qed.

Lemma sendCandidateQueue_resends_what_arrived_meanwhile_witness :
  candidateSendQueue
    (this (world (sendCandidateQueue
                    (upd (set_candidateSendQueue fiveCandidates)
                       (callIn Connecting Outbound))))) = [].
Proof.
  pose proof (proj1 (proj2
    (sendCandidateQueue_resends_what_arrived_meanwhile
       (upd (set_candidateSendQueue fiveCandidates) (callIn Connecting Outbound))
       ltac:(discriminate) ltac:(discriminate)))) as H.
  cbv zeta in H. by rewrite H.
Defined.

(** X14. [queueCandidate] appends the candidate to the queue. On a ringing
    call that is all. Otherwise a timeout of 500 ms is started on an
    inbound call and of 2000 ms on any other; when it elapses the queue as
    it is by then is sent in one Candidates message and emptied, unless it
    is empty or the call has Ended. *)
Theorem queueCandidate_flushes_after_delay :
  ∀ content w,
    let queued := upd (set_candidateSendQueue (candidateSendQueue (this w) ++ [content])) w in
    let st := queueCandidate content w in
    rest st = Done ∧
    if decide (state (this w) = Ringing) then st = ret queued
    else
      let ms := if decide (direction (this w) = Some Inbound) then 500%Z else 2000%Z in
      let timeout := length (effects w) in
      world st = pendingDelay ms queued ∧
      ∃ t,
        started st = [t] ∧
        ∀ (elapsed tick : Oracle) (w' : World),
          elapsed (AwElapsed timeout ms) = Resolved () →
          let st' := run [elapsed; tick] t w' in
          rest st' = Done ∧
          this (world st') =
            (if decide (candidateSendQueue (this w') = [] ∨ state (this w') = Ended)
             then this (elapsedDelay timeout w')
             else set_candidateSendQueue [] (this (elapsedDelay timeout w'))) ∧
          effects (world st') =
            effects w' ++
            (if decide (candidateSendQueue (this w') = [] ∨ state (this w') = Ended)
             then []
             else [SendSignallingMessage
                     (CandidatesMessage
                        (mkCandidatesContent (candidateSendQueue (this w'))))]).
Proof.
  intros content w. cbv zeta. unfold queueCandidate. cbv zeta. fields.
  destruct (decide (state (this w) = Ringing)) as [Hr|Hr]; [done|].
  set (ms := if decide (direction (this w) = Some Inbound) then 500%Z else 2000%Z).
  split; [reflexivity|]. split; [reflexivity|].
  eexists. split; [reflexivity|].
  intros elapsed tick w' Helapsed.
  cbn [detach started app].
  change (rest (awaitOk (delay ms ?w0) ?k)) with (rest (awaitOk (delay ms w0) k)).
  rewrite run_delay_resumed by exact Helapsed.
  destruct (decide (candidateSendQueue (this w') = [] ∨ state (this w') = Ended))
    as [Hstop|Hgo].
  - rewrite sendCandidateQueue_idle by exact Hstop.
    unfold detach, ret. cbn [world started rest app].
    rewrite runCall_nil by (by repeat constructor). cbn [world rest].
    by rewrite app_nil_r.
  - rewrite sendCandidateQueue_sends by exact Hgo.
    unfold detach, await. cbn [world started rest app].
    rewrite runCall_nil by (by repeat constructor). cbn [world rest].
    by fields.
Qed.

Lemma queueCandidate_flushes_after_delay_witness :
  rest (queueCandidate candX1 (callIn Connecting Outbound)) = Done.
Proof.
  exact (proj1 (queueCandidate_flushes_after_delay candX1 (callIn Connecting Outbound))).
Defined.

(** ** The purpose of a stream *)

(** X15. [getPurposeForStreamId] once [updateRemoteSDPStreamMetadata] has
    run: a stream named in the incoming metadata has the purpose given
    there; any other stream keeps the purpose it had, Usermedia when it
    never had one. *)
Theorem purpose_follows_latest_metadata :
  ∀ metadata w streamId,
    getPurposeForStreamId streamId (updateRemoteSDPStreamMetadata metadata w) =
    match metadata !! streamId with
    | Some streamMetaData => purpose streamMetaData
    | None => getPurposeForStreamId streamId w
    end.
Proof.
  intros metadata w streamId. rewrite updateRemoteSDPStreamMetadata_eq.
  unfold getPurposeForStreamId, mergedMetadata, recursivelyAssign. cbn.
  destruct (metadata !! streamId) as [md|] eqn:Hmd.
  - by rewrite (lookup_union_Some_l _ _ _ _ Hmd).
  - rewrite lookup_union_r by done.
    destruct (remoteSDPStreamMetadata (this w)) as [old|]; [done|].
    cbn. by rewrite ?lookup_empty.
Qed.

(** ** The deferreds of [waitForState] *)

(** X16. [waitForState] creates the deferred of a state once: a second
    call finds it and changes nothing, and no update is emitted.
    [setState] to that state then removes this deferred and no other: the
    states still waited for are those waited for before, but the one
    reached. *)
Theorem setState_resolves_the_deferred_of_its_state :
  ∀ st w,
    NoDup (statePromiseMap (this w)) →
    let waitingFor := waitForState st w in
    let reached := setState st waitingFor in
    st ∈ statePromiseMap (this waitingFor) ∧
    NoDup (statePromiseMap (this waitingFor)) ∧
    waitForState st waitingFor = waitingFor ∧
    effects waitingFor = effects w ∧
    statePromiseMap (this reached) = filter (λ s, s ≠ st) (statePromiseMap (this w)) ∧
    (∀ st', st' ∈ statePromiseMap (this reached) ↔
            st' ≠ st ∧ st' ∈ statePromiseMap (this w)) ∧
    NoDup (statePromiseMap (this reached)).
Proof.
  intros st w Hnd. cbv zeta.
  assert (st ∈ statePromiseMap (this (waitForState st w))) as Hin.
  { unfold waitForState. destruct (decide _); [done|]. cbn. set_solver. }
  assert (statePromiseMap (this (setState st (waitForState st w))) =
          filter (λ s, s ≠ st) (statePromiseMap (this w))) as Hmap.
  { rewrite setState_eq. cbn [this statePromiseMap set_statePromiseMap set_state].
    unfold waitForState. destruct (decide _) as [|Hnot]; [done|]. cbn.
    rewrite filter_app, filter_cons_False by (by intros ?). cbn.
    by rewrite app_nil_r. }
  split_and!.
  - done.
  - unfold waitForState. destruct (decide _) as [|Hnot]; [done|]. cbn.
    apply NoDup_app. split_and!; [done| |apply NoDup_singleton].
    intros s Hs Hs'. apply list_elem_of_singleton in Hs' as ->. done.
  - unfold waitForState at 1. by rewrite decide_True.
  - unfold waitForState. by destruct (decide _).
  - done.
  - intros st'. rewrite Hmap, list_elem_of_filter. tauto.
  - rewrite Hmap. by apply NoDup_filter.
Qed.

Lemma setState_resolves_the_deferred_of_its_state_witness :
  InviteSent ∈ statePromiseMap (this (waitForState InviteSent freshCall)).
Proof.
  exact (proj1
    (setState_resolves_the_deferred_of_its_state InviteSent freshCall NoDup_nil_2)).
Defined.

(** ** What every activation maintains *)

Section StableLemmas.

Variable R : World → World → Prop.
Hypothesis R_refl : ∀ w, R w w.
Hypothesis R_trans : ∀ w1 w2 w3, R w1 w2 → R w2 w3 → R w1 w3.

Lemma stable_Await aw k :
  stable R (Await aw k) ↔ ∀ o w, stableFrom R w (k o w).
Proof.
  assert (∀ ts, (fix all (ts : list Async) : Prop :=
                   match ts with
                   | [] => True
                   | t :: ts => stable R t ∧ all ts
                   end) ts ↔ Forall (stable R) ts) as Hall.
  { induction ts as [|t ts IH]; [by split|].
    rewrite Forall_cons. by rewrite IH. }
  unfold stableFrom. cbn [stable]. split; intros H o w.
  - destruct (H o w) as (? & ? & ?). by rewrite <- Hall.
  - destruct (H o w) as (? & ? & ?). by rewrite Hall.
Qed.

Lemma stableFrom_ret w w' : R w w' → stableFrom R w (ret w').
Proof. intros H. by repeat split. Qed.

Lemma stableFrom_throw w w' : R w w' → stableFrom R w (throw w').
Proof. intros H. by repeat split. Qed.

Lemma stableFrom_await w aw w' k :
  R w w' → (∀ o w'', stableFrom R w'' (k o w'')) → stableFrom R w (await aw w' k).
Proof. intros H Hk. split; [done|]. split; [by apply stable_Await | done]. Qed.

Lemma stable_andThen t k :
  stable R t → (∀ o w, stableFrom R w (k o w)) → stable R (andThen t k).
Proof using R_refl.
  intros Ht Hk. induction t as [| |p|aw k' IH] using Async_induction.
  - apply stable_Await. intros _ w. apply Hk.
  - apply stable_Await. intros _ w. apply Hk.
  - done.
  - cbn [andThen]. apply stable_Await. intros o w.
    destruct (proj1 (stable_Await aw k') Ht o w) as (Hf & Hr & Hs).
    split; [done|]. split; [|done]. cbn [rest]. by apply IH.
Qed.

Lemma stableFrom_awaitCall w st k :
  stableFrom R w st → (∀ o w', stableFrom R w' (k o w')) →
  stableFrom R w (awaitCall st k).
Proof using R_refl.
  intros (Hf & Hr & Hs) Hk. split; [done|]. split; [|done].
  by apply stable_andThen.
Qed.

Lemma stableFrom_awaitOk w st k :
  stableFrom R w st → (∀ w', stableFrom R w' (k w')) → stableFrom R w (awaitOk st k).
Proof using R_refl.
  intros Hst Hk. apply stableFrom_awaitCall; [done|].
  intros [v|] w'; [apply Hk | by apply stableFrom_throw].
Qed.

Lemma stableFrom_detach w st r :
  stableFrom R w st → stable R r → stableFrom R w (detach st r).
Proof.
  intros (Hf & Hr & Hs) Hk. split; [done|]. split; [done|].
  cbn. apply Forall_app. split; [done|]. by constructor.
Qed.

Lemma stableFrom_fork w ts st :
  Forall (stable R) ts → stableFrom R w st → stableFrom R w (fork ts st).
Proof.
  intros Hts (Hf & Hr & Hs). split; [done|]. split; [done|].
  cbn. by apply Forall_app.
Qed.

Lemma stableFrom_trans w w' st : R w w' → stableFrom R w' st → stableFrom R w st.
Proof using R_trans. intros H (Hf & Hr & Hs). split; [by eapply R_trans | done]. Qed.

Lemma stableFrom_settle w st :
  (∀ p w, stableFrom R w (body p w)) → stableFrom R w st → stableFrom R w (settle st).
Proof using R_refl R_trans.
  intros Hbody (Hf & Hr & Hs). unfold settle.
  assert (∀ ts acc,
            Forall (stable R) ts → Forall (stable R) acc.2 →
            R acc.1 (foldl enter acc ts).1 ∧
            Forall (stable R) (foldl enter acc ts).2) as Hfold.
  { induction ts as [|t ts IH]; intros acc Hts Hacc; [by split|].
    apply Forall_cons in Hts as [Ht Hts]. cbn [foldl].
    destruct (IH (enter acc t) Hts) as [IH1 IH2].
    - destruct t as [| |aw k|p]; cbn;
        try (apply Forall_app; split; [done|]; by constructor).
      destruct (Hbody p acc.1) as (_ & ? & ?).
      apply Forall_app. split; [done|]. apply Forall_app. split; [done|].
      by constructor.
    - split; [|done]. apply (R_trans _ (enter acc t).1); [|done].
      destruct t as [| |aw k|p]; cbn; try apply R_refl.
      by destruct (Hbody p acc.1) as (? & _ & _). }
  destruct (Hfold (started st) (world st, []) Hs) as [H1 H2]; [done|].
  split; [by eapply R_trans|]. by split.
Qed.

Lemma stableFrom_resume o t w :
  (∀ p w, stableFrom R w (body p w)) → stable R t → stableFrom R w (resume o t w).
Proof using R_refl R_trans.
  intros Hbody Ht. destruct t as [| |aw k|p]; cbn; try by split.
  apply stableFrom_settle; [done|]. by apply (proj1 (stable_Await aw k)).
Qed.

End StableLemmas.

(** ** How a call evolves *)

Lemma evolves_refl w : evolves w w.
Proof.
  unfold evolves. split_and!; try done; try (by left).
  exists []. by rewrite app_nil_r.
Qed.

Lemma evolves_trans w1 w2 w3 : evolves w1 w2 → evolves w2 w3 → evolves w1 w3.
Proof.
  intros (Ho1 & Hs1 & Hr1 & Hp1 & Hq1 & c1 & He1 & Hh1 & Hc1)
         (Ho2 & Hs2 & Hr2 & Hp2 & Hq2 & c2 & He2 & Hh2 & Hc2).
  unfold evolves. split_and!.
  - intros H. rewrite Ho2; [by apply Ho1|]. by rewrite Ho1.
  - intros H. by apply Hs2, Hs1.
  - congruence.
  - destruct Hp2 as [-> | ->]; [done|by right].
  - intros H. by apply Hq2, Hq1.
  - exists (c1 ++ c2). split_and!.
    + by rewrite He2, He1, app_assoc.
    + by apply Forall_app.
    + intros H. apply Forall_app. split; [by apply Hc1|]. by apply Hc2, Hq1.
Qed.

(** Assignments to fields the relation does not constrain. *)
Lemma evolves_upd f w :
  (∀ p, opponentPartyId (f p) = opponentPartyId p ∧
        state (f p) = state p ∧
        hangupReason (f p) = hangupReason p ∧
        hangupParty (f p) = hangupParty p ∧
        candidateSendQueue (f p) = candidateSendQueue p) →
  evolves w (upd f w).
Proof.
  intros Hf. destruct (Hf (this w)) as (Ho & Hs & Hr & Hp & Hq).
  unfold evolves, upd. cbn [this effects].
  rewrite Ho, Hs, Hr, Hp, Hq. split_and!; try done; try (by left).
  exists []. by rewrite app_nil_r.
Qed.

Lemma evolves_emit e w : noHangup e → noCandidates e → evolves w (emit e w).
Proof.
  intros Hh Hc. unfold evolves, emit. cbn [this effects].
  split_and!; try done; try (by left).
  exists [e]. split_and!; [done|by constructor|intros _; by constructor].
Qed.

Lemma evolves_emits {A} (f : A → Effect) (l : list A) w :
  (∀ a, noHangup (f a) ∧ noCandidates (f a)) →
  evolves w (foldl (λ w a, emit (f a) w) w l).
Proof.
  intros Hf. revert w. induction l as [|a l IH]; intros w; [apply evolves_refl|].
  cbn [foldl]. apply (evolves_trans _ (emit (f a) w)); [|apply IH].
  apply evolves_emit; apply Hf.
Qed.

Lemma evolves_setState st w : st ≠ Fledgling → evolves w (setState st w).
Proof.
  intros Hst. rewrite setState_eq. unfold evolves. cbn [this effects].
  split_and!; try done; try (by left).
  exists [EmitUpdate]. split_and!; [done|by constructor|intros _; by constructor].
Qed.

Lemma evolves_waitForState st w : evolves w (waitForState st w).
Proof.
  unfold waitForState. destruct (decide _); [apply evolves_refl|].
  by apply evolves_upd.
Qed.

Lemma evolves_stopAllMedia w : evolves w (stopAllMedia w).
Proof. unfold stopAllMedia. by apply evolves_emits. Qed.

Lemma evolves_updateRemoteSDPStreamMetadata metadata w :
  evolves w (updateRemoteSDPStreamMetadata metadata w).
Proof.
  rewrite updateRemoteSDPStreamMetadata_eq. unfold evolves. cbn [this effects].
  split_and!; try done; try (by left).
  eexists. split; [reflexivity|].
  assert (∀ merged remote,
            Forall (λ e, noHangup e ∧ noCandidates e) (muteCalls merged remote)) as Hmute.
  { intros merged remote. induction remote as [|t remote IH]; [constructor|].
    rewrite muteCalls_cons. destruct (merged !! streamId t); [|done].
    by constructor. }
  unfold metadataCalls. split; [|intros _]; constructor; try done.
  all: eapply Forall_impl; [apply Hmute|]; by intros e [? ?].
Qed.

Lemma evolves_clear_queue w : evolves w (upd (set_candidateSendQueue []) w).
Proof.
  unfold evolves, upd. cbn. split_and!; try done; try (by left).
  exists []. by rewrite app_nil_r.
Qed.

Lemma evolves_choose_opponent partyId w :
  opponentPartyId (this w) = None →
  evolves w (upd (set_opponentPartyId (Some partyId)) w).
Proof.
  intros Hopp. unfold evolves, upd. cbn. split_and!; try done; try (by left).
  exists []. by rewrite app_nil_r.
Qed.

Lemma evolves_remote_hangup w : evolves w (upd (set_hangupParty (Some Remote)) w).
Proof.
  unfold evolves, upd. cbn. split_and!; try done; try (by left); try (by right).
  exists []. by rewrite app_nil_r.
Qed.

Lemma evolves_send_candidates w :
  candidateSendQueue (this w) ≠ [] →
  evolves w
    (emit (SendSignallingMessage
             (CandidatesMessage (mkCandidatesContent (candidateSendQueue (this w)))))
       (upd (set_candidateSendQueue []) w)).
Proof.
  intros Hq. unfold evolves, upd, emit. cbn. split_and!; try done; try (by left).
  eexists. split; [reflexivity|]. split; [by constructor|done].
Qed.

(** Solve [evolves w w'] where [w'] is [w] after a run of assignments and
    calls that the lemmas above cover. *)
Ltac evolve_steps :=
  lazymatch goal with
  | |- evolves ?w ?w => apply evolves_refl
  | |- evolves ?w (emit ?e ?x) =>
      apply (evolves_trans w x); [evolve_steps | by apply evolves_emit]
  | |- evolves ?w (setState ?st ?x) =>
      apply (evolves_trans w x); [evolve_steps | by apply evolves_setState]
  | |- evolves ?w (waitForState ?st ?x) =>
      apply (evolves_trans w x); [evolve_steps | apply evolves_waitForState]
  | |- evolves ?w (stopAllMedia ?x) =>
      apply (evolves_trans w x); [evolve_steps | apply evolves_stopAllMedia]
  | |- evolves ?w (updateRemoteSDPStreamMetadata ?m ?x) =>
      apply (evolves_trans w x);
      [evolve_steps | apply evolves_updateRemoteSDPStreamMetadata]
  | |- evolves ?w (foldl (λ w0 a, emit (@?f a) w0) ?x ?l) =>
      apply (evolves_trans w x); [evolve_steps | by apply (evolves_emits f)]
  | |- evolves ?w (upd (set_candidateSendQueue []) ?x) =>
      apply (evolves_trans w x); [evolve_steps | apply evolves_clear_queue]
  | |- evolves ?w (upd (set_hangupParty (Some Remote)) ?x) =>
      apply (evolves_trans w x); [evolve_steps | apply evolves_remote_hangup]
  | |- evolves ?w (upd ?f ?x) =>
      apply (evolves_trans w x); [evolve_steps | by apply evolves_upd]
  | |- evolves ?w (match ?o with Some m => _ | None => _ end) =>
      destruct o; evolve_steps
  end.

Ltac evolve := cbv zeta; cbn [world]; evolve_steps.

(** Every method of the class evolves the call, in each of its segments. *)
Lemma evolving_delay ms w : stableFrom evolves w (delay ms w).
Proof.
  unfold delay. cbv zeta. apply stableFrom_await; [evolve|].
  intros [v|] w'; [apply stableFrom_ret; evolve | apply stableFrom_throw; evolve].
Qed.

Lemma evolving_terminate party reason shouldEmit w :
  stableFrom evolves w (terminate party reason shouldEmit w).
Proof. apply stableFrom_ret. evolve. Qed.

Lemma evolving_hangup w : stableFrom evolves w (hangup w).
Proof. apply stableFrom_ret. evolve. Qed.

Lemma evolving_sendCandidateQueue w : stableFrom evolves w (sendCandidateQueue w).
Proof.
  destruct (decide (candidateSendQueue (this w) = [] ∨ state (this w) = Ended))
    as [Hstop|Hgo].
  - rewrite sendCandidateQueue_idle by done. apply stableFrom_ret. evolve.
  - rewrite sendCandidateQueue_sends by done.
    apply stableFrom_await; [apply evolves_send_candidates; tauto|].
    intros [v|] w'.
    + split; [evolve|]. split; [done|]. by repeat constructor.
    + apply stableFrom_detach; [apply evolving_terminate | done].
Qed.

Lemma evolving_body p w : stableFrom evolves w (body p w).
Proof. destruct p. apply evolving_sendCandidateQueue. Qed.

Lemma evolving_addIceCandidates candidates : ∀ w,
  stableFrom evolves w (addIceCandidates candidates w).
Proof.
  induction candidates as [|c candidates IH]; intros w; cbn [addIceCandidates].
  - apply stableFrom_ret. evolve.
  - destruct (noMidNoIndex c); [apply IH|].
    cbv zeta. apply stableFrom_await; [evolve|].
    intros [v|] w'; [apply IH | apply stableFrom_throw; evolve].
Qed.

Lemma evolving_addBufferedIceCandidates w :
  stableFrom evolves w (addBufferedIceCandidates w).
Proof.
  rewrite addBufferedIceCandidates_eq.
  destruct (bufferedForOpponent w); [apply stableFrom_throw; evolve|].
  apply stableFrom_ret. unfold afterDrain.
  destruct (remoteCandidateBuffer _); [|evolve].
  destruct (truthyPartyId _); evolve.
Qed.

Lemma evolving_sendAnswer w : stableFrom evolves w (sendAnswer w).
Proof. rewrite sendAnswer_throws. apply stableFrom_throw. evolve. Qed.

Lemma evolving_call localMediaPromise w : stableFrom evolves w (call localMediaPromise w).
Proof.
  unfold call. destruct (decide _); [apply stableFrom_ret; evolve|].
  cbv zeta. apply stableFrom_await; [evolve|].
  intros [media|] w'; [|apply stableFrom_ret; evolve].
  apply stableFrom_await; [evolve|].
  intros [v|] w''; [apply stableFrom_ret; evolve | apply stableFrom_throw; evolve].
Qed.

Lemma evolving_answer localMediaPromise w :
  stableFrom evolves w (answer localMediaPromise w).
Proof.
  unfold answer. destruct (decide _); [apply stableFrom_ret; evolve|].
  cbv zeta. apply stableFrom_await; [evolve|].
  intros [media|] w1; [|apply stableFrom_ret; evolve].
  apply stableFrom_await; [evolve|].
  intros [myAnswer|] w2;
    [|apply stableFrom_detach; [apply evolving_terminate | done]].
  apply stableFrom_await; [evolve|].
  intros [v|] w3;
    [|apply stableFrom_detach; [apply evolving_terminate | done]].
  apply (stableFrom_trans _ evolves_trans _ (setState Connecting w3)); [evolve|].
  apply stableFrom_awaitOk; [apply evolves_refl|apply evolving_delay|].
  intros w4. apply stableFrom_detach; [apply evolving_sendAnswer | done].
Qed.

Lemma evolving_handleNegotiation_timeout w :
  stableFrom evolves w (handleNegotiation_timeout w).
Proof.
  unfold handleNegotiation_timeout.
  destruct (evolving_sendCandidateQueue w) as (Hf & Hr & Hs).
  assert (Forall (stable evolves)
            (started (sendCandidateQueue w) ++ [rest (sendCandidateQueue w)])) as Hflush.
  { apply Forall_app. split; [done|]. by constructor. }
  cbv zeta. destruct (decide _).
  - apply stableFrom_fork; [done|].
    apply (stableFrom_trans _ evolves_trans _ (world (sendCandidateQueue w))); [done|].
    apply stableFrom_awaitOk; [apply evolves_refl|apply evolving_delay|].
    intros w'. destruct (decide _).
    + apply stableFrom_detach; [apply evolving_hangup | done].
    + apply stableFrom_ret. evolve.
  - by split.
Qed.

Lemma evolving_handleNegotiation_offer w :
  stableFrom evolves w (handleNegotiation_offer w).
Proof.
  rewrite handleNegotiation_offer_eq.
  destruct (decide _); [apply stableFrom_ret | apply stableFrom_throw]; evolve.
Qed.

Lemma evolving_handleNegotiation w : stableFrom evolves w (handleNegotiation w).
Proof.
  unfold handleNegotiation. cbv zeta. apply stableFrom_await; [evolve|].
  intros [v|] w'.
  - destruct (decide _).
    + apply stableFrom_awaitOk; [apply evolves_refl|apply evolving_delay|].
      apply evolving_handleNegotiation_offer.
    + apply evolving_handleNegotiation_offer.
  - apply stableFrom_detach; [apply evolving_terminate | done].
Qed.

Lemma evolving_handleInvite content partyId w :
  stableFrom evolves w (handleInvite content partyId w).
Proof.
  unfold handleInvite.
  destruct (decide _) as [|Hgo]; [apply stableFrom_ret; evolve|].
  assert (opponentPartyId (this w) = None) as Hopp.
  { destruct (opponentPartyId (this w)) eqn:H; [|done]. exfalso. apply Hgo. by right. }
  cbv zeta. apply stableFrom_await.
  { apply (evolves_trans _ (upd (set_opponentPartyId (Some partyId)) w));
      [by apply evolves_choose_opponent|].
    evolve. }
  intros [v|] w1;
    [|apply stableFrom_detach; [apply evolving_terminate | done]].
  apply stableFrom_awaitCall;
    [apply evolves_refl|apply evolving_addBufferedIceCandidates|].
  intros [v'|] w2;
    [|apply stableFrom_detach; [apply evolving_terminate | done]].
  destruct (decide _);
    [apply stableFrom_detach; [apply evolving_terminate | done]|].
  apply (stableFrom_trans _ evolves_trans _ (setState Ringing w2)); [evolve|].
  apply stableFrom_awaitOk; [apply evolves_refl|apply evolving_delay|].
  intros w3. destruct (decide _); [|apply stableFrom_ret; evolve].
  cbv zeta. destruct (decide _); apply stableFrom_ret; evolve.
Qed.

Lemma evolving_handleAnswer content partyId w :
  stableFrom evolves w (handleAnswer content partyId w).
Proof.
  unfold handleAnswer.
  destruct (decide _); [apply stableFrom_ret; evolve|].
  destruct (decide _) as [|Hopp]; [apply stableFrom_throw; evolve|].
  assert (opponentPartyId (this w) = None) as Hnone.
  { destruct (opponentPartyId (this w)) eqn:H; [|done]. exfalso. by apply Hopp. }
  cbv zeta.
  apply (stableFrom_trans _ evolves_trans _ (upd (set_opponentPartyId (Some partyId)) w));
    [by apply evolves_choose_opponent|].
  apply stableFrom_awaitOk;
    [apply evolves_refl|apply evolving_addBufferedIceCandidates|].
  intros w1. apply stableFrom_await; [evolve|].
  intros [v|] w2; [apply stableFrom_ret; evolve|].
  apply stableFrom_detach; [apply evolving_terminate | done].
Qed.

Lemma evolves_applyTrack oldTrack newTrack w :
  evolves w (applyTrack oldTrack newTrack w).
Proof. unfold applyTrack. destruct oldTrack, newTrack; evolve. Qed.

Lemma evolving_setMedia localMediaPromise w :
  stableFrom evolves w (setMedia localMediaPromise w).
Proof.
  unfold setMedia. cbv zeta. apply stableFrom_await; [evolve|].
  intros [media|] w'; [|apply stableFrom_throw; evolve].
  apply stableFrom_ret.
  repeat (eapply evolves_trans; [|apply evolves_applyTrack]).
  evolve.
Qed.

Lemma evolves_dispose w : evolves w (dispose w).
Proof.
  unfold dispose.
  apply (evolves_trans _ (foldl (λ w timeout, emit (AbortTimeout timeout) w) w
                            (disposables (this w)))).
  - by apply (evolves_emits AbortTimeout).
  - by apply evolves_upd.
Qed.

(** The call at l.95 as the class stands maintains all this: it throws. *)
Lemma evolving_notAFunction content w :
  stableFrom evolves w (notAFunction content w).
Proof. apply stableFrom_throw. evolve. Qed.

Section EvolvingSessions.

Variable handleRemoteIceCandidates : CandidatesContent → World → Step Async.
Hypothesis evolving_handleRemoteIceCandidates :
  ∀ content w, stableFrom evolves w (handleRemoteIceCandidates content w).

Lemma evolving_invoke e w :
  stableFrom evolves w (invoke handleRemoteIceCandidates e w).
Proof using evolving_handleRemoteIceCandidates.
  destruct e as [p|p| |p|message partyId| |]; cbn [invoke].
  - apply evolving_call.
  - apply evolving_answer.
  - apply evolving_hangup.
  - apply evolving_setMedia.
  - destruct message; cbn [handleIncomingSignallingMessage].
    + apply stableFrom_detach; [apply evolving_handleInvite | done].
    + apply stableFrom_detach; [apply evolving_handleAnswer | done].
    + apply evolving_handleRemoteIceCandidates.
    + apply stableFrom_ret. evolve.
    + apply stableFrom_ret. evolve.
  - apply evolving_handleNegotiation.
  - apply stableFrom_ret. apply evolves_dispose.
Qed.

Lemma act_evolves s a :
  Forall (stable evolves) (suspended s) →
  evolves (current s) (current (act handleRemoteIceCandidates s a)) ∧
  Forall (stable evolves) (suspended (act handleRemoteIceCandidates s a)).
Proof using evolving_handleRemoteIceCandidates.
  intros Hpool.
  assert (∀ st others,
            stableFrom evolves (current s) st → Forall (stable evolves) others →
            evolves (current s) (current (collect st others)) ∧
            Forall (stable evolves) (suspended (collect st others))) as Hcollect.
  { intros st others (Hw & Hr & Hs) Hothers. split; [done|].
    cbn. apply Forall_app. split; [done|]. apply Forall_app. split; [done|].
    by constructor. }
  destruct a as [e|i o|promise]; cbn [act].
  - apply Hcollect; [|done].
    apply (stableFrom_settle _ evolves_refl evolves_trans); [apply evolving_body|].
    apply evolving_invoke.
  - destruct (suspended s !! i) as [t|] eqn:Ht; [|split; [apply evolves_refl|done]].
    apply Hcollect; [|by apply Forall_delete].
    apply (stableFrom_resume _ evolves_refl evolves_trans); [apply evolving_body|].
    by eapply Forall_lookup_1.
  - split; [|done]. cbn [current]. evolve.
Qed.

Lemma session_evolves actions : ∀ s,
  Forall (stable evolves) (suspended s) →
  evolves (current s) (current (foldl (act handleRemoteIceCandidates) s actions)).
Proof using evolving_handleRemoteIceCandidates.
  induction actions as [|a actions IH]; intros s Hpool; [apply evolves_refl|].
  cbn [foldl]. destruct (act_evolves s a Hpool) as [Hw Hp].
  eapply evolves_trans; [exact Hw|]. by apply IH.
Qed.

End EvolvingSessions.

(** ** What holds throughout a session *)

Lemma session_suspended handleRemoteIceCandidates actions :
  (∀ content w, stableFrom evolves w (handleRemoteIceCandidates content w)) →
  ∀ s, Forall (stable evolves) (suspended s) →
       Forall (stable evolves)
         (suspended (foldl (act handleRemoteIceCandidates) s actions)).
Proof.
  intros HhRIC. induction actions as [|a actions IH]; intros s Hpool; [done|].
  cbn [foldl]. apply IH. by apply act_evolves.
Qed.

(** X17. Throughout a session, whatever the interleaving of [call],
    [answer], signalling messages, negotiations and resumptions and
    whatever the outcomes of the awaits: once [opponentPartyId] is set it
    never changes, and a call that has left Fledgling never returns to it.
    [handleRemoteIceCandidates], which the class calls and does not
    define, is assumed to do the same. *)
Theorem opponent_is_chosen_once :
  ∀ handleRemoteIceCandidates,
    (∀ content w, stableFrom evolves w (handleRemoteIceCandidates content w)) →
    ∀ w before later,
      let s := session handleRemoteIceCandidates w before in
      let s' := foldl (act handleRemoteIceCandidates) s later in
      (opponentPartyId (this (current s)) ≠ None →
       opponentPartyId (this (current s')) = opponentPartyId (this (current s))) ∧
      (state (this (current s)) ≠ Fledgling → state (this (current s')) ≠ Fledgling).
Proof.
  intros hRIC HhRIC w before later. cbv zeta.
  pose proof (session_suspended hRIC before HhRIC (mkSession w []) (Forall_nil_2 _))
    as Hpool.
  destruct (session_evolves hRIC HhRIC later _ Hpool) as (Ho & Hs & _).
  by split.
Qed.

Lemma opponent_is_chosen_once_witness :
  let hRIC := λ (_ : CandidatesContent) w, throw w in
  let s := session hRIC freshCall
             [Invoke (DoSignalling (InviteMessage sampleInvite) (Some "A"))] in
  let s' := foldl (act hRIC) s
              [Resume 0 allResolve;
               Invoke (DoSignalling (AnswerMessage sampleAnswer) (Some "B"));
               Invoke (DoSignalling (InviteMessage sampleInvite) (Some "C"))] in
  opponentPartyId (this (current s)) = Some (Some "A") ∧
  opponentPartyId (this (current s')) = Some (Some "A").
Proof.
  cbv zeta.
  destruct (opponent_is_chosen_once (λ _ w, throw w)
              (λ _ w, stableFrom_throw evolves w w (evolves_refl w))
              freshCall
              [Invoke (DoSignalling (InviteMessage sampleInvite) (Some "A"))]
              [Resume 0 allResolve;
               Invoke (DoSignalling (AnswerMessage sampleAnswer) (Some "B"));
               Invoke (DoSignalling (InviteMessage sampleInvite) (Some "C"))])
    as [Hopp _].
  split; [reflexivity|]. rewrite Hopp; [reflexivity|]. by vm_compute.
Defined.

(** X18. Throughout a session no Hangup message is sent, [hangupReason] is
    never assigned, and [hangupParty] is either what it was or Remote: the
    class never records or signals a hangup of its own, whatever fails.
    [handleRemoteIceCandidates] is assumed to do the same. *)
Theorem call_is_never_hung_up_locally :
  ∀ handleRemoteIceCandidates,
    (∀ content w, stableFrom evolves w (handleRemoteIceCandidates content w)) →
    ∀ w actions,
      let s := session handleRemoteIceCandidates w actions in
      hangupReason (this (current s)) = hangupReason (this w) ∧
      (hangupParty (this (current s)) = hangupParty (this w) ∨
       hangupParty (this (current s)) = Some Remote) ∧
      ∃ calls, effects (current s) = effects w ++ calls ∧ Forall noHangup calls.
Proof.
  intros hRIC HhRIC w actions. cbv zeta.
  destruct (session_evolves hRIC HhRIC actions (mkSession w []) (Forall_nil_2 _))
    as (_ & _ & Hr & Hp & _ & calls & He & Hh & _).
  split; [done|]. split; [done|]. by exists calls.
Qed.

Lemma call_is_never_hung_up_locally_witness :
  let s := session (λ _ w, throw w) freshCall
             [Invoke (DoCall 0); Resume 0 rejecting; Invoke DoNegotiation;
              Resume 1 rejecting] in
  hangupReason (this (current s)) = None.
Proof.
  exact (proj1
    (call_is_never_hung_up_locally (λ _ w, throw w)
       (λ _ w, stableFrom_throw evolves w w (evolves_refl w))
       freshCall
       [Invoke (DoCall 0); Resume 0 rejecting; Invoke DoNegotiation; Resume 1 rejecting])).
Defined.

(** X19. Throughout a session that starts with an empty candidate queue,
    the queue stays empty and no Candidates message is sent: nothing that
    can be called from outside reaches [queueCandidate], which is private
    and has no caller ([onLocalIceCandidate], l.66, is empty).
    [handleRemoteIceCandidates] is assumed not to queue or send local
    candidates either. *)
Theorem local_candidates_are_never_sent :
  ∀ handleRemoteIceCandidates,
    (∀ content w, stableFrom evolves w (handleRemoteIceCandidates content w)) →
    ∀ w actions,
      candidateSendQueue (this w) = [] →
      let s := session handleRemoteIceCandidates w actions in
      candidateSendQueue (this (current s)) = [] ∧
      ∃ calls, effects (current s) = effects w ++ calls ∧ Forall noCandidates calls.
Proof.
  intros hRIC HhRIC w actions Hq. cbv zeta.
  destruct (session_evolves hRIC HhRIC actions (mkSession w []) (Forall_nil_2 _))
    as (_ & _ & _ & _ & Hq' & calls & He & _ & Hc).
  split; [by apply Hq'|]. exists calls. split; [done|]. by apply Hc.
Qed.

Lemma local_candidates_are_never_sent_witness :
  let s := session (λ _ w, throw w) freshCall
             [Invoke (DoSignalling (InviteMessage sampleInvite) (Some "A"));
              Resume 0 allResolve; Resume 0 allResolve; Invoke (DoAnswer 0)] in
  candidateSendQueue (this (current s)) = [].
Proof.
  exact (proj1
    (local_candidates_are_never_sent (λ _ w, throw w)
       (λ _ w, stableFrom_throw evolves w w (evolves_refl w))
       freshCall
       [Invoke (DoSignalling (InviteMessage sampleInvite) (Some "A"));
        Resume 0 allResolve; Resume 0 allResolve; Invoke (DoAnswer 0)]
       eq_refl)).
Defined.

(** ** call *)

(** X20. [call] on a Fledgling call whose local media promise resolves:
    the direction becomes Outbound, the state WaitLocalMedia and then
    CreateOffer, the media is stored and each of its tracks added to the
    connection in order; [call] then waits for the state InviteSent, whose
    deferred it has created. It sends nothing itself and leaves the
    candidate queue alone. *)
Theorem call_adds_tracks_and_waits_for_invite :
  ∀ localMediaPromise w media (o : Oracle),
    state (this w) = Fledgling →
    o (AwLocalMedia localMediaPromise) = Resolved media →
    let st := runCall [o] (call localMediaPromise w) in
    started st = [] ∧
    (∃ k, rest st = Await (AwState InviteSent) k) ∧
    direction (this (world st)) = Some Outbound ∧
    state (this (world st)) = CreateOffer ∧
    localMedia (this (world st)) = media ∧
    InviteSent ∈ statePromiseMap (this (world st)) ∧
    candidateSendQueue (this (world st)) = candidateSendQueue (this w) ∧
    effects (world st) =
      effects w ++ [EmitUpdate; EmitUpdate] ++ map PcAddTrack (tracks media).
Proof.
  intros p w media o Hs Ho. cbv zeta. unfold call.
  rewrite decide_False by (rewrite Hs; by intros ?).
  cbv zeta. rewrite runCall_await, Ho.
  unfold await. rewrite runCall_nil by done. cbn [started rest world].
  split; [done|]. split; [by eexists|].
  set (w1 := foldl _ _ _).
  assert (this w1 =
          set_statePromiseMap
            (filter (λ s, s ≠ CreateOffer)
               (filter (λ s, s ≠ WaitLocalMedia) (statePromiseMap (this w))))
            (set_state CreateOffer
               (set_localMedia media
                  (set_state WaitLocalMedia (set_direction (Some Outbound) (this w))))) ∧
          effects w1 =
            effects w ++ [EmitUpdate; EmitUpdate] ++ map PcAddTrack (tracks media))
    as [Hthis Heff].
  { unfold w1. flatten. split; [done|]. by reassoc. }
  clearbody w1.
  assert (InviteSent ∈ statePromiseMap (this (waitForState InviteSent w1))) as Hin.
  { unfold waitForState. destruct (decide _); [done|]. cbn. set_solver. }
  assert (∀ {A} (f : PeerCall → A),
            (∀ p', f (set_statePromiseMap (statePromiseMap p' ++ [InviteSent]) p') = f p') →
            f (this (waitForState InviteSent w1)) = f (this w1)) as Hframe.
  { intros A f Hf. unfold waitForState. destruct (decide _); [done|]. cbn. apply Hf. }
  split_and!.
  - by rewrite (Hframe _ direction), Hthis.
  - by rewrite (Hframe _ state), Hthis.
  - by rewrite (Hframe _ localMedia), Hthis.
  - done.
  - by rewrite (Hframe _ candidateSendQueue), Hthis.
  - rewrite <- Heff. unfold waitForState. by destruct (decide _).
Qed.

Lemma call_adds_tracks_and_waits_for_invite_witness :
  state (this (world (runCall [allResolve] (call 0 freshCall)))) = CreateOffer.
Proof.
  exact (proj1 (proj2 (proj2 (proj2
    (call_adds_tracks_and_waits_for_invite 0 freshCall sampleMedia allResolve
       eq_refl eq_refl))))).
Defined.

(** * MappedMap *)

Section MappedMapProperties.

Context {K : Type} `{Countable K} {V Params : Type}.
Variable mapper : K → V → V.
Variable updater : bool.
Variable truthy : V → bool.
Variable isUndefined : V → bool.

Lemma size_map_imap_total (f : K → V → V) (m : gmap K V) :
  size (map_imap (λ key value, Some (f key value)) m) = size m.
Proof.
  induction m as [|i x m Hi IH] using map_ind.
  - by rewrite map_imap_empty.
  - rewrite map_imap_insert, !map_size_insert_None, IH; [done..|].
    by rewrite map_lookup_imap, Hi.
Qed.

Lemma onSubscribeFirst_mappedValues (source : gmap K V) (m : MappedMap (Params := Params)) :
  _mappedValues (onSubscribeFirst mapper source m) =
  map_imap (λ key value, Some (mapper key value)) source ∪ _mappedValues m.
Proof.
  unfold onSubscribeFirst. cbn.
  apply (map_fold_weak_ind
           (λ mapped source,
              mapped = map_imap (λ key value, Some (mapper key value)) source
                       ∪ _mappedValues m)).
  - by rewrite map_imap_empty, (left_id_L ∅ (∪)).
  - intros i x src r Hi ->. by rewrite map_imap_insert, insert_union_l.
Qed.

Lemma deliver_mappedValues (m : MappedMap (Params := Params)) origin d :
  _mappedValues m = map_imap (λ key value, Some (mapper key value)) origin →
  _mappedValues (deliver mapper updater truthy isUndefined m d) =
  map_imap (λ key value, Some (mapper key value)) (addedWith origin d).
Proof.
  intros Hm. destruct d as [key value|key|key value params| |key params];
    cbn [deliver addedWith].
  - cbn. by rewrite Hm, map_imap_insert.
  - unfold onRemove, get. rewrite map_imap_delete, <- Hm.
    destruct (_mappedValues m !! key) as [mappedValue|] eqn:Hkey.
    + cbn. by destruct (truthy mappedValue).
    + by rewrite delete_id.
  - unfold onUpdate, get. destruct (_mappedValues m !! key) as [mappedValue|]; [|done].
    destruct (isUndefined mappedValue); [done|]. by destruct updater.
  - cbn. by rewrite map_imap_empty.
  - unfold _emitSpontaneousUpdate, get.
    destruct (_mappedValues m !! key) as [mappedValue|]; [|done].
    by destruct (truthy mappedValue).
Qed.

Lemma deliver_subscription (m : MappedMap (Params := Params)) d :
  _subscription (deliver mapper updater truthy isUndefined m d) = _subscription m.
Proof.
  destruct d as [key value|key|key value params| |key params]; cbn [deliver]; try done.
  - unfold onRemove. destruct (get key m) as [v|]; [|done]. cbn. by destruct (truthy v).
  - unfold onUpdate. destruct (get key m) as [v|]; [|done].
    destruct (isUndefined v); [done|]. by destruct updater.
  - unfold _emitSpontaneousUpdate. destruct (get key m) as [v|]; [|done].
    by destruct (truthy v).
Qed.

(** X21. A [MappedMap] that was subscribed on a source and has since
    received any sequence of additions, removals, updates, resets and
    spontaneous updates holds exactly the keys the source holds, each with
    the value the mapper made of the source value the key was added with:
    an update never maps again. [get] and [size] answer accordingly, and
    the subscription is kept. *)
Theorem mapped_map_tracks_its_source :
  ∀ (source : gmap K V) (deliveries : list (Delivery (Params := Params))),
    let m := foldl (deliver mapper updater truthy isUndefined)
               (onSubscribeFirst mapper source newMappedMap) deliveries in
    let origin := foldl addedWith source deliveries in
    _mappedValues m = map_imap (λ key value, Some (mapper key value)) origin ∧
    (∀ key, get key m = mapper key <$> origin !! key) ∧
    mapSize m = size origin ∧
    _subscription m = true.
Proof.
  intros source deliveries. cbv zeta.
  assert (∀ (m : MappedMap (Params := Params)) origin,
            _mappedValues m = map_imap (λ key value, Some (mapper key value)) origin →
            _mappedValues (foldl (deliver mapper updater truthy isUndefined) m deliveries) =
              map_imap (λ key value, Some (mapper key value))
                (foldl addedWith origin deliveries) ∧
            _subscription (foldl (deliver mapper updater truthy isUndefined) m deliveries) =
              _subscription m) as Hrun.
  { induction deliveries as [|d deliveries IH]; intros m origin Hm; [done|].
    cbn [foldl].
    destruct (IH (deliver mapper updater truthy isUndefined m d) (addedWith origin d))
      as [IH1 IH2]; [by apply deliver_mappedValues|].
    split; [done|]. by rewrite IH2, deliver_subscription. }
  destruct (Hrun (onSubscribeFirst mapper source newMappedMap) source) as [Hmapped Hsub].
  { rewrite onSubscribeFirst_mappedValues. cbn. by rewrite (right_id_L ∅ (∪)). }
  split_and!.
  - done.
  - intros key. unfold get. rewrite Hmapped, map_lookup_imap.
    by destruct (_ !! key).
  - unfold mapSize. by rewrite Hmapped, size_map_imap_total.
  - by rewrite Hsub.
Qed.

(** X22. [onRemove] after [onAdd] of the same key leaves the mapped values
    as they were without that key, whatever was mapped to it before. The
    subscribers are told of the addition; they are told of the removal only
    if the mapped value is truthy. [onRemove] of a key that is not mapped
    changes nothing and tells nobody. *)
Theorem removal_undoes_addition_silently_when_falsy :
  ∀ (m : MappedMap (Params := Params)) key value,
    let added := onAdd mapper key value m in
    let removed := onRemove truthy key added in
    get key added = Some (mapper key value) ∧
    _mappedValues removed = delete key (_mappedValues m) ∧
    calls removed =
      calls m ++
      EmitAdd key (mapper key value)
      :: (if truthy (mapper key value) then [EmitRemove key (mapper key value)] else []) ∧
    (get key m = None →
     onRemove truthy key m = m ∧ _mappedValues removed = _mappedValues m).
Proof.
  intros m key value. cbv zeta.
  assert (∀ m' : MappedMap (Params := Params),
            get key m' = None → onRemove truthy key m' = m') as Habsent.
  { intros m' Hnone. unfold onRemove. by rewrite Hnone. }
  assert (onRemove truthy key (onAdd mapper key value m) =
          (if truthy (mapper key value)
           then emitting (EmitRemove key (mapper key value))
           else id)
            (mkMappedMap (delete key (_mappedValues m)) (_subscription m)
               (calls m ++ [EmitAdd key (mapper key value)]))) as ->.
  { unfold onRemove, onAdd, get. cbn. rewrite lookup_insert_eq. cbn.
    rewrite delete_insert_eq. by destruct (truthy (mapper key value)). }
  split; [unfold onAdd, get; cbn; by rewrite lookup_insert_eq|].
  destruct (truthy (mapper key value)); cbn.
  - split; [done|]. split; [by rewrite <- app_assoc|].
    intros Hnone. split; [by apply Habsent|]. by apply delete_id.
  - split; [done|]. split; [done|].
    intros Hnone. split; [by apply Habsent|]. by apply delete_id.
Qed.

End MappedMapProperties.

